(** * copilot-api: alias registry, upstream relay and stream accumulator

    A shallow embedding of
      - [src/lib/model-normalization.ts]  (alias registry),
      - [src/services/copilot/create-chat-completions.ts]  (upstream relay
        with its retry-once-after-refresh logic),
      - [src/routes/chat-completions/handler.ts]  (request handler and the
        accumulator that folds a stream into one response),
      - [src/routes/models/route.ts]  (model listing),
    followed by the properties of the specification that concern them. *)

From Stdlib Require Import ZArith String Ascii List Bool Lia Sorted.
From stdpp Require Import base option list gmap strings sets.

Set Default Proof Using "Type".
#[local] Set Warnings "-clear-no-such-hyp".
Local Open Scope string_scope.
Local Open Scope list_scope.
Local Open Scope Z_scope.

(* ===================================================================== *)
(** * Generic list helpers *)
(* ===================================================================== *)

(** [first_occurrences l] keeps, of every element of [l], its first
    occurrence only, in the order of [l]. *)
Fixpoint first_occurrences `{EqDecision A} (l : list A) : list A :=
  match l with
  | [] => []
  | x :: l' => x :: filter (λ y, y ≠ x) (first_occurrences l')
  end.

(* ===================================================================== *)
(** * Alias registry ([lib/model-normalization.ts]) *)
(* ===================================================================== *)

Module ModelNormalization.

(** The fixed alias table, an object literal; its entries are listed in
    insertion order, which is the order [Object.entries] yields. *)
Definition modelAliases : list (string * string) :=
  [ ("claude-opus-4-6[1M]", "claude-opus-4.6-1m");
    ("claude-opus-4-6", "claude-opus-4.6-1m");
    ("claude-sonnet-4-6", "claude-sonnet-4.6");
    ("claude-haiku-4-5", "claude-haiku-4.5") ].

(** [modelAliases] is a plain object, so the read [modelAliases[key]]
    finds the table's own entries first and then what every object
    inherits from [Object.prototype]: its methods (function values) and
    the [__proto__] accessor (which yields [Object.prototype] itself). *)
Inductive PropertyValue : Type :=
| StringValue (s : string)
| InheritedFunction (name : string)
| InheritedPrototype.

#[global] Instance PropertyValue_eq_dec : EqDecision PropertyValue.
Proof. solve_decision. Defined.

Definition objectPrototypeMethods : list string :=
  [ "constructor"; "hasOwnProperty"; "isPrototypeOf";
    "propertyIsEnumerable"; "toLocaleString"; "toString"; "valueOf";
    "__defineGetter__"; "__defineSetter__";
    "__lookupGetter__"; "__lookupSetter__" ].

Fixpoint ownProperty (o : list (string * string)) (key : string)
  : option string :=
  match o with
  | [] => None
  | (k, v) :: o' => if decide (k = key) then Some v else ownProperty o' key
  end.

(** [o[key]]; [None] is [undefined]. *)
Definition getProperty (o : list (string * string)) (key : string)
  : option PropertyValue :=
  match ownProperty o key with
  | Some v => Some (StringValue v)
  | None =>
      if decide (key = "__proto__") then Some InheritedPrototype
      else if decide (key ∈ objectPrototypeMethods)
           then Some (InheritedFunction key)
           else None
  end.

(** [modelAliases[modelId] ?? modelId] *)
Definition normalizeModelName (modelId : string) : PropertyValue :=
  default (StringValue modelId) (getProperty modelAliases modelId).

(** One iteration of the loop that fills [reverseModelAliases]. *)
Definition addAlias (m : gmap string (list string)) (entry : string * string)
  : gmap string (list string) :=
  let aliases := default [] (m !! entry.2) in
  <[entry.2 := aliases ++ [entry.1]]> m.

Definition reverseModelAliases : gmap string (list string) :=
  foldl addAlias ∅ modelAliases.

(** [reverseModelAliases.get(modelId) ?? []] *)
Definition getModelAliases (modelId : string) : list string :=
  default [] (reverseModelAliases !! modelId).

(** State of the two nested loops of [expandModelIdsWithAliases]:
    the array [expandedModelIds] and the set [seenModelIds]. *)
Definition visitVariant (st : list string * gset string) (variant : string)
  : list string * gset string :=
  if decide (variant ∈ st.2) then st
  else (st.1 ++ [variant], {[variant]} ∪ st.2).

Definition visitModelId (st : list string * gset string) (modelId : string)
  : list string * gset string :=
  foldl visitVariant st (modelId :: getModelAliases modelId).

Definition expandModelIdsWithAliases (modelIds : list string) : list string :=
  (foldl visitModelId ([], ∅) modelIds).1.

End ModelNormalization.

(* ===================================================================== *)
(** * Model listing ([routes/models/route.ts]) *)
(* ===================================================================== *)

Module ModelsRoute.
Import ModelNormalization.

(** An entry of the cached upstream catalog ([state.models.data]), with
    the fields this code reads. *)
Record Model := {
  model_id : string;
  model_name : string;
  model_vendor : string;
  model_max_output_tokens : option Z
}.

(** A row of the client-facing listing. *)
Record ModelEntry := {
  entry_id : string;
  entry_object : string;
  entry_type : string;
  entry_created : Z;
  entry_created_at : string;
  entry_owned_by : string;
  entry_display_name : string
}.

Record ModelList := {
  list_object : string;
  list_data : list ModelEntry;
  list_has_more : bool
}.

(** [new Map(data.map(model => [model.id, model]))]: a later entry with
    the same id replaces an earlier one. *)
Definition modelById (data : list Model) : gmap string Model :=
  foldl (λ m model, <[model_id model := model]> m) ∅ data.

(** [modelById.get(key)]: only a string can be a key of this map. *)
Definition mapGet (m : gmap string Model) (key : PropertyValue)
  : option Model :=
  match key with
  | StringValue s => m !! s
  | _ => None
  end.

Definition toEntry (byId : gmap string Model) (modelId : string)
  : list ModelEntry :=
  match mapGet byId (normalizeModelName modelId) with
  | None => []
  | Some sourceModel =>
      [ {| entry_id := modelId;
           entry_object := "model";
           entry_type := "model";
           entry_created := 0;
           entry_created_at := "1970-01-01T00:00:00.000Z";
           entry_owned_by := model_vendor sourceModel;
           entry_display_name := model_name sourceModel |} ]
  end.

(** The body of the GET handler, as a function of the catalog snapshot
    [state.models] ([None] when it is still unset after the fallback
    [cacheModels()]). *)
Definition listModels (models : option (list Model)) : ModelList :=
  let data := default [] models in
  let byId := modelById data in
  let modelIds := expandModelIdsWithAliases (model_id <$> data) in
  {| list_object := "list";
     list_data := modelIds ≫= toEntry byId;
     list_has_more := false |}.

End ModelsRoute.


(* ===================================================================== *)
(** * Upstream relay ([services/copilot/create-chat-completions.ts]) *)
(* ===================================================================== *)

Module Relay.
Import ModelNormalization ModelsRoute.

(** ** Payload types *)

Inductive Role := User | Assistant | System | Tool | Developer.

Inductive ContentPart :=
| TextPart (text : string)
| ImagePart (url : string) (detail : option string).

(** [content: string | Array<ContentPart> | null] *)
Inductive MessageContent :=
| ContentString (s : string)
| ContentParts (parts : list ContentPart)
| ContentNull.

Record ToolCall := {
  call_id : string;
  call_name : string;        (* function.name *)
  call_arguments : string    (* function.arguments *)
}.

Record Message := {
  msg_role : Role;
  msg_content : MessageContent;
  msg_name : option string;
  msg_tool_calls : option (list ToolCall);
  msg_tool_call_id : option string
}.

(** The client's request.  [payload_stream] is [stream?: boolean | null]:
    [None] when the member is absent, [Some None] when it is [null].
    [payload_max_tokens] is [None] when the member is nullish.  The other
    generation parameters are copied through untouched; they are kept as
    a list of member names with their JSON text. *)
Record ChatCompletionsPayload := {
  payload_messages : list Message;
  payload_model : string;
  payload_max_tokens : option Z;
  payload_stream : option (option bool);
  payload_params : list (string * string)
}.

(** The object handed to [JSON.stringify] by [doFetch]: the payload with
    its [model] member replaced by what [normalizeModelName] returned. *)
Record RequestBody := {
  body_messages : list Message;
  body_model : PropertyValue;
  body_max_tokens : option Z;
  body_stream : option (option bool);
  body_params : list (string * string)
}.

(** How [JSON.stringify] renders one member of an object: a string
    stays a string, a function-valued member is left out, and
    [Object.prototype] (no enumerable members) becomes the empty object. *)
Inductive JsonMember :=
| MemberString (s : string)
| MemberEmptyObject
| MemberOmitted.

Definition stringifyMember (v : PropertyValue) : JsonMember :=
  match v with
  | StringValue s => MemberString s
  | InheritedFunction _ => MemberOmitted
  | InheritedPrototype => MemberEmptyObject
  end.

(** The [model] member of the request as the upstream reads it. *)
Definition wireModel (b : RequestBody) : JsonMember :=
  stringifyMember (body_model b).

Record Request := {
  req_url : string;
  req_method : string;
  req_headers : gmap string string;
  req_body : RequestBody
}.

Record Response := {
  status : Z;
  response_body : string
}.

(** [response.ok] of the Fetch API: the status is in the range 200-299. *)
Definition ok (r : Response) : bool :=
  (200 <=? status r) && (status r <=? 299).

(** [ServerSentEventMessage] of fetch-event-stream. *)
Record ServerSentEventMessage := {
  sse_data : option string;
  sse_event : option string;
  sse_id : option string;
  sse_retry : option Z
}.

(** ** Exceptions and the execution monad *)

Inductive Exception :=
| TokenNotFound                                   (* Error("Copilot token not found") *)
| HTTPError (message : string) (response : Response)
| FetchRejected                                   (* the promise of [fetch] rejects *)
| TypeError (message : string)
| Rejected (message : string)                     (* raised by admission control *)
| SyntaxError (message : string).                 (* a text that is not JSON *)

Inductive Outcome (A : Type) :=
| Returned (a : A)
| Thrown (e : Exception).
Arguments Returned {A} a.
Arguments Thrown {A} e.

(** What an execution does that is visible outside the process. *)
Inductive TraceEvent :=
| EvFetch (req : Request)
| EvRefresh.

(** The collaborators that are outside this code: the process-wide
    [state], the network, and the functions imported from [~/lib].
    [W] is the state of the process together with the outside world. *)
Class Environment (W : Type) := {
  copilotToken : W → option string;                  (* state.copilotToken *)
  copilotHeaders : W → bool → gmap string string;    (* ~/lib/api-config *)
  copilotBaseUrl : W → string;                       (* ~/lib/api-config *)
  fetch : Request → W → option Response * W;         (* [None]: rejected *)
  refreshCopilotTokenOnError : W → bool * W;         (* ~/lib/token *)
  events : Response → list ServerSentEventMessage;   (* fetch-event-stream *)
  checkRateLimit : W → option Exception * W;         (* ~/lib/rate-limit *)
  manualApprove : W → bool;                          (* state.manualApprove *)
  awaitApproval : W → option Exception * W;          (* ~/lib/approval *)
  models : W → option (list Model)                   (* state.models?.data *)
}.

(** [response.json()] belongs to the runtime: the promise is fulfilled
    with the value the body is the JSON text of, of a type [J] this code
    does not look into, or rejects when the body is not JSON. *)
Class BodyReader (J : Type) := {
  response_json : Response → Outcome J
}.

(** A computation reads and replaces the world and extends the trace. *)
Definition M (W A : Type) : Type :=
  W * list TraceEvent → Outcome A * (W * list TraceEvent).

Section Monad.
Context {W : Type}.

Definition ret {A} (a : A) : M W A := λ s, (Returned a, s).

Definition throw {A} (e : Exception) : M W A := λ s, (Thrown e, s).

Definition bind {A B} (m : M W A) (k : A → M W B) : M W B :=
  λ s, match m s with
       | (Returned a, s') => k a s'
       | (Thrown e, s') => (Thrown e, s')
       end.

Definition getWorld : M W W := λ s, (Returned s.1, s).

(** An external call that may raise. *)
Definition external (f : W → option Exception * W) : M W unit :=
  λ s, match f s.1 with
       | (None, w) => (Returned tt, (w, s.2))
       | (Some e, w) => (Thrown e, (w, s.2))
       end.
End Monad.

Notation "'let*' x ':=' m 'in' k" := (bind m (λ x, k))
  (at level 10, x name, m at level 100, k at level 200, only parsing).

Section Relay.
Context `{Environment W}.

(** [await fetch(url, init)], recorded in the trace. *)
Definition callFetch (req : Request) : M W Response :=
  λ s, match fetch req s.1 with
       | (Some response, w) => (Returned response, (w, s.2 ++ [EvFetch req]))
       | (None, w) => (Thrown FetchRejected, (w, s.2 ++ [EvFetch req]))
       end.

(** [await refreshCopilotTokenOnError()], recorded in the trace. *)
Definition callRefresh : M W bool :=
  λ s, let '(refreshed, w) := refreshCopilotTokenOnError s.1 in
       (Returned refreshed, (w, s.2 ++ [EvRefresh])).

(** Truthiness of an optional string. *)
Definition truthy (s : option string) : bool :=
  match s with
  | Some s => negb (String.eqb s EmptyString)
  | None => false
  end.

Definition isImagePart (p : ContentPart) : bool :=
  match p with ImagePart _ _ => true | TextPart _ => false end.

Definition hasImage (x : Message) : bool :=
  match msg_content x with
  | ContentParts parts => existsb isImagePart parts
  | ContentString _ | ContentNull => false
  end.

Definition isAgentRole (msg : Message) : bool :=
  match msg_role msg with
  | Assistant | Tool => true
  | User | System | Developer => false
  end.

(** The request [doFetch] builds before it calls [fetch]. *)
Definition doFetchRequest (w : W) (payload : ChatCompletionsPayload)
    (streamOverride : option bool) : Request :=
  let normalizedPayload :=
    {| body_messages := payload_messages payload;
       body_model := normalizeModelName (payload_model payload);
       body_max_tokens := payload_max_tokens payload;
       body_stream := payload_stream payload;
       body_params := payload_params payload |} in
  let enableVision := existsb hasImage (body_messages normalizedPayload) in
  let isAgentCall := existsb isAgentRole (body_messages normalizedPayload) in
  let headers :=
    <["X-Initiator" := if isAgentCall then "agent" else "user"]>
      (copilotHeaders w enableVision) in
  let body :=
    match streamOverride with
    | Some b =>
        {| body_messages := body_messages normalizedPayload;
           body_model := body_model normalizedPayload;
           body_max_tokens := body_max_tokens normalizedPayload;
           body_stream := Some (Some b);
           body_params := body_params normalizedPayload |}
    | None => normalizedPayload
    end in
  {| req_url := copilotBaseUrl w +:+ "/chat/completions";
     req_method := "POST";
     req_headers := headers;
     req_body := body |}.

Definition doFetch (payload : ChatCompletionsPayload)
    (streamOverride : option bool) : M W Response :=
  let* w := getWorld in
  if negb (truthy (copilotToken w)) then throw TokenNotFound
  else callFetch (doFetchRequest w payload streamOverride).

(** What [createChatCompletions] returns: the event stream when the
    payload asks for one, otherwise the value that [response.json()]
    reads. *)
Inductive Completion (J : Type) :=
| Streamed (chunks : list ServerSentEventMessage)
| Buffered (body : J).
#[global] Arguments Streamed {J} chunks.
#[global] Arguments Buffered {J} body.

(** The entry point that sends the payload as the client wrote it; the
    request handler does not use it.  [payload.stream] is a boolean,
    [null] or absent, so it is truthy only when it is [true]. *)
Definition createChatCompletions `{BodyReader J}
    (payload : ChatCompletionsPayload) : M W (Completion J) :=
  let* response := doFetch payload None in
  let* response :=
    (if status response =? 401 then
       let* refreshed := callRefresh in
       if refreshed then doFetch payload None else ret response
     else ret response) in
  if negb (ok response)
  then throw (HTTPError "Failed to create chat completions" response)
  else if bool_decide (payload_stream payload = Some (Some true))
       then ret (Streamed (events response))
       else match response_json response with
            | Returned body => ret (Buffered body)
            | Thrown e => throw e
            end.

(** The end of [createChatCompletionsStream]: a response that is not [ok]
    is raised as an [HTTPError] that carries it. *)
Definition eventsOrThrow (response : Response)
  : M W (list ServerSentEventMessage) :=
  if negb (ok response)
  then throw (HTTPError "Failed to create chat completions" response)
  else ret (events response).

Definition createChatCompletionsStream (payload : ChatCompletionsPayload)
  : M W (list ServerSentEventMessage) :=
  let* response := doFetch payload (Some true) in
  let* response :=
    (if status response =? 401 then
       let* refreshed := callRefresh in
       if refreshed then doFetch payload (Some true) else ret response
     else ret response) in
  eventsOrThrow response.

End Relay.
End Relay.

(* ===================================================================== *)
(** * Request handler and stream accumulator
      ([routes/chat-completions/handler.ts]) *)
(* ===================================================================== *)

Module Handler.
Import ModelNormalization ModelsRoute Relay.

(** ** Streaming and non-streaming types *)

Inductive FinishReason := Stop | Length | ToolCalls | ContentFilter.

Record Usage := {
  prompt_tokens : Z;
  completion_tokens : Z;
  total_tokens : Z;
  cached_tokens : option Z;             (* prompt_tokens_details *)
  prediction_tokens : option (Z * Z)    (* completion_tokens_details *)
}.

(** [function?: { name?: string; arguments?: string }] *)
Record FunctionDelta := {
  fn_name : option string;
  fn_arguments : option string
}.

(** One tool-call fragment of a [Delta]. *)
Record ToolCallDelta := {
  tcd_index : Z;
  tcd_id : option string;
  tcd_function : option FunctionDelta
}.

Record Delta := {
  delta_content : option string;                  (* absent or null: [None] *)
  delta_tool_calls : option (list ToolCallDelta)
}.

(** [JSON.parse] checks nothing against the declared interfaces, so a
    member the interface requires can still be missing at run time; a
    missing member reads as [undefined], here [None].  ([null] and
    [undefined] are not told apart: the code treats them alike.) *)
Record Choice := {
  choice_delta : option Delta;
  choice_finish_reason : option FinishReason
}.

Record ChatCompletionChunk := {
  chunk_id : option string;
  chunk_model : option string;
  chunk_created : option Z;
  chunk_system_fingerprint : option string;
  chunk_usage : option Usage;
  chunk_choices : option (list Choice)
}.

Record ResponseMessage := {
  message_role : Role;
  message_content : option string;                (* [None] is [null] *)
  message_tool_calls : option (list ToolCall)     (* [None]: member absent *)
}.

Record ChoiceNonStreaming := {
  cns_index : Z;
  cns_message : ResponseMessage;
  cns_finish_reason : FinishReason
}.

Record ChatCompletionResponse := {
  resp_id : string;
  resp_object : string;
  resp_created : Z;
  resp_model : string;
  resp_choices : list ChoiceNonStreaming;
  resp_system_fingerprint : option string;
  resp_usage : option Usage
}.

(** ** Accumulator *)

(** [ToolCallAccumulator] has the shape of [ToolCall]
    ([type] is the constant ["function"]). *)
Abbreviation ToolCallAccumulator := ToolCall (only parsing).

(** [toolCalls] is a JS [Map], which remembers the order in which its
    keys were first set; [values()] iterates in that order.  It is kept
    as an association list with distinct keys, in insertion order. *)
Record StreamAccumulator := {
  acc_id : string;
  acc_model : string;
  acc_created : Z;
  acc_systemFingerprint : option string;
  acc_finishReason : FinishReason;
  acc_content : string;
  acc_toolCalls : list (Z * ToolCallAccumulator);
  acc_usage : option Usage
}.

Definition set_id (v : string) (a : StreamAccumulator) : StreamAccumulator :=
  {| acc_id := v; acc_model := acc_model a; acc_created := acc_created a;
     acc_systemFingerprint := acc_systemFingerprint a;
     acc_finishReason := acc_finishReason a; acc_content := acc_content a;
     acc_toolCalls := acc_toolCalls a; acc_usage := acc_usage a |}.

Definition set_model (v : string) (a : StreamAccumulator) : StreamAccumulator :=
  {| acc_id := acc_id a; acc_model := v; acc_created := acc_created a;
     acc_systemFingerprint := acc_systemFingerprint a;
     acc_finishReason := acc_finishReason a; acc_content := acc_content a;
     acc_toolCalls := acc_toolCalls a; acc_usage := acc_usage a |}.

Definition set_created (v : Z) (a : StreamAccumulator) : StreamAccumulator :=
  {| acc_id := acc_id a; acc_model := acc_model a; acc_created := v;
     acc_systemFingerprint := acc_systemFingerprint a;
     acc_finishReason := acc_finishReason a; acc_content := acc_content a;
     acc_toolCalls := acc_toolCalls a; acc_usage := acc_usage a |}.

Definition set_systemFingerprint (v : option string) (a : StreamAccumulator)
  : StreamAccumulator :=
  {| acc_id := acc_id a; acc_model := acc_model a; acc_created := acc_created a;
     acc_systemFingerprint := v;
     acc_finishReason := acc_finishReason a; acc_content := acc_content a;
     acc_toolCalls := acc_toolCalls a; acc_usage := acc_usage a |}.

Definition set_finishReason (v : FinishReason) (a : StreamAccumulator)
  : StreamAccumulator :=
  {| acc_id := acc_id a; acc_model := acc_model a; acc_created := acc_created a;
     acc_systemFingerprint := acc_systemFingerprint a;
     acc_finishReason := v; acc_content := acc_content a;
     acc_toolCalls := acc_toolCalls a; acc_usage := acc_usage a |}.

Definition set_content (v : string) (a : StreamAccumulator) : StreamAccumulator :=
  {| acc_id := acc_id a; acc_model := acc_model a; acc_created := acc_created a;
     acc_systemFingerprint := acc_systemFingerprint a;
     acc_finishReason := acc_finishReason a; acc_content := v;
     acc_toolCalls := acc_toolCalls a; acc_usage := acc_usage a |}.

Definition set_toolCalls (v : list (Z * ToolCallAccumulator))
    (a : StreamAccumulator) : StreamAccumulator :=
  {| acc_id := acc_id a; acc_model := acc_model a; acc_created := acc_created a;
     acc_systemFingerprint := acc_systemFingerprint a;
     acc_finishReason := acc_finishReason a; acc_content := acc_content a;
     acc_toolCalls := v; acc_usage := acc_usage a |}.

Definition set_usage (v : option Usage) (a : StreamAccumulator)
  : StreamAccumulator :=
  {| acc_id := acc_id a; acc_model := acc_model a; acc_created := acc_created a;
     acc_systemFingerprint := acc_systemFingerprint a;
     acc_finishReason := acc_finishReason a; acc_content := acc_content a;
     acc_toolCalls := acc_toolCalls a; acc_usage := v |}.

Definition createAccumulator : StreamAccumulator :=
  {| acc_id := EmptyString;
     acc_model := EmptyString;
     acc_created := 0;
     acc_systemFingerprint := None;
     acc_finishReason := Stop;
     acc_content := EmptyString;
     acc_toolCalls := [];
     acc_usage := None |}.

(** [!s] for a string. *)
Definition isEmpty (s : string) : bool := String.eqb s EmptyString.

(** [toolCalls.get(index)] *)
Fixpoint toolCallsGet (toolCalls : list (Z * ToolCallAccumulator)) (index : Z)
  : option ToolCallAccumulator :=
  match toolCalls with
  | [] => None
  | (k, v) :: rest => if k =? index then Some v else toolCallsGet rest index
  end.

(** Writing through the reference [existing]: the entry of the key
    changes where it stands. *)
Fixpoint toolCallsReplace (toolCalls : list (Z * ToolCallAccumulator))
    (index : Z) (v : ToolCallAccumulator) : list (Z * ToolCallAccumulator) :=
  match toolCalls with
  | [] => []
  | (k, v') :: rest =>
      if k =? index then (k, v) :: rest
      else (k, v') :: toolCallsReplace rest index v
  end.

(** The entry made for a fragment whose index is not in the map yet. *)
Definition newEntry (delta : ToolCallDelta) : ToolCallAccumulator :=
{| call_id := default EmptyString (tcd_id delta);
   call_name := default EmptyString (tcd_function delta ≫= fn_name);
   call_arguments := default EmptyString (tcd_function delta ≫= fn_arguments) |}.

(** The three conditional assignments to an entry that exists already. *)
Definition fillEntry (existing : ToolCallAccumulator) (delta : ToolCallDelta)
  : ToolCallAccumulator :=
{| call_id :=
     if isEmpty (call_id existing) && truthy (tcd_id delta)
     then default EmptyString (tcd_id delta) else call_id existing;
   call_name :=
     if isEmpty (call_name existing) && truthy (tcd_function delta ≫= fn_name)
     then default EmptyString (tcd_function delta ≫= fn_name)
     else call_name existing;
   call_arguments :=
     if truthy (tcd_function delta ≫= fn_arguments)
     then call_arguments existing
          +:+ default EmptyString (tcd_function delta ≫= fn_arguments)
     else call_arguments existing |}.

(** One iteration of the loop of [mergeToolCalls]. *)
Definition mergeToolCall (toolCalls : list (Z * ToolCallAccumulator))
    (delta : ToolCallDelta) : list (Z * ToolCallAccumulator) :=
match toolCallsGet toolCalls (tcd_index delta) with
| None => toolCalls ++ [(tcd_index delta, newEntry delta)]
| Some existing =>
    toolCallsReplace toolCalls (tcd_index delta) (fillEntry existing delta)
end.

Definition mergeToolCalls (toolCalls : list (Z * ToolCallAccumulator))
    (deltas : list ToolCallDelta) : list (Z * ToolCallAccumulator) :=
  foldl mergeToolCall toolCalls deltas.

(** The first four statements of [applyChunkToAccumulator]. *)
Definition latch (parsed : ChatCompletionChunk) (a : StreamAccumulator)
  : StreamAccumulator :=
  let a :=
    if isEmpty (acc_id a) && truthy (chunk_id parsed)
    then set_id (default EmptyString (chunk_id parsed)) a else a in
  let a :=
    if isEmpty (acc_model a) && truthy (chunk_model parsed)
    then set_model (default EmptyString (chunk_model parsed)) a else a in
  let a :=
    if (acc_created a =? 0) && negb (default 0 (chunk_created parsed) =? 0)
    then set_created (default 0 (chunk_created parsed)) a else a in
  if negb (truthy (acc_systemFingerprint a))
     && truthy (chunk_system_fingerprint parsed)
  then set_systemFingerprint (chunk_system_fingerprint parsed) a else a.

(** The accumulator is mutated in place; when the function throws, the
    exception leaves [collectStreamToResponse] and the accumulator is
    abandoned, so only the exception is kept. *)
Definition applyChunkToAccumulator (parsed : ChatCompletionChunk)
    (accumulator : StreamAccumulator) : Outcome StreamAccumulator :=
  let a := latch parsed accumulator in
  let a := match chunk_usage parsed with
           | Some u => set_usage (Some u) a
           | None => a
           end in
  match chunk_choices parsed with
  | None =>
      Thrown (TypeError "Cannot read properties of undefined (reading 'at')")
  | Some choices =>
      match head choices with
      | None => Returned a
      | Some choice =>
          let a := match choice_finish_reason choice with
                   | Some r => set_finishReason r a
                   | None => a
                   end in
          match choice_delta choice with
          | None =>
              Thrown (TypeError
                "Cannot read properties of undefined (reading 'content')")
          | Some delta =>
              let a := match delta_content delta with
                       | Some s => set_content (acc_content a +:+ s) a
                       | None => a
                       end in
              let a := match delta_tool_calls delta with
                       | Some deltas =>
                           set_toolCalls
                             (mergeToolCalls (acc_toolCalls a) deltas) a
                       | None => a
                       end in
              Returned a
          end
      end
  end.

Definition buildResponse (accumulator : StreamAccumulator)
  : ChatCompletionResponse :=
  {| resp_id := acc_id accumulator;
     resp_object := "chat.completion";
     resp_created := acc_created accumulator;
     resp_model := acc_model accumulator;
     resp_choices :=
       [ {| cns_index := 0;
            cns_message :=
              {| message_role := Assistant;
                 message_content :=
                   if isEmpty (acc_content accumulator) then None
                   else Some (acc_content accumulator);
                 message_tool_calls :=
                   match acc_toolCalls accumulator with
                   | [] => None
                   | _ :: _ => Some (acc_toolCalls accumulator).*2
                   end |};
            cns_finish_reason := acc_finishReason accumulator |} ];
     resp_system_fingerprint :=
       if truthy (acc_systemFingerprint accumulator)
       then acc_systemFingerprint accumulator else None;
     resp_usage := acc_usage accumulator |}.

(** [JSON.parse] belongs to the runtime.  [JSON_parse s] is [None] when
    it throws, [Some None] when [s] is the JSON text of a falsy value
    ([null], [false], [0], the empty string) and [Some (Some c)] when it
    is the text of any other value, [c] holding the members the code
    reads (all absent for a value that is not an object). *)
Class JsonParser := { JSON_parse : string → option (option ChatCompletionChunk) }.

(** What one iteration of the [for await] loop does. *)
Inductive LoopStep :=
| Continue (accumulator : StreamAccumulator)
| Break
| Raise (e : Exception).

Section Collect.
Context `{JsonParser}.

(** [chunk.data] is a string here, so the [typeof] test passes; the
    [catch] turns a parse failure into [null].  The result is only
    tested for truthiness, so [null] and a falsy parsed value are
    both [None]. *)
Definition parseChunkDataOrLog (data : string) : option ChatCompletionChunk :=
  match JSON_parse data with
  | Some parsed => parsed
  | None => None
  end.

Definition loopStep (chunk : ServerSentEventMessage)
    (accumulator : StreamAccumulator) : LoopStep :=
  if negb (truthy (sse_data chunk)) then Continue accumulator
  else
    let data := default EmptyString (sse_data chunk) in
    if String.eqb data "[DONE]" then Break
    else
      match parseChunkDataOrLog data with
      | None => Continue accumulator
      | Some parsed =>
          match applyChunkToAccumulator parsed accumulator with
          | Returned accumulator' => Continue accumulator'
          | Thrown e => Raise e
          end
      end.

Fixpoint collectLoop (stream : list ServerSentEventMessage)
    (accumulator : StreamAccumulator) : Outcome StreamAccumulator :=
  match stream with
  | [] => Returned accumulator
  | chunk :: rest =>
      match loopStep chunk accumulator with
      | Continue accumulator' => collectLoop rest accumulator'
      | Break => Returned accumulator
      | Raise e => Thrown e
      end
  end.

Definition collectStreamToResponse (stream : list ServerSentEventMessage)
  : Outcome ChatCompletionResponse :=
  match collectLoop stream createAccumulator with
  | Returned accumulator => Returned (buildResponse accumulator)
  | Thrown e => Thrown e
  end.

(** The values the accumulator takes after each completed iteration
    of the loop, in order. *)
Fixpoint accumulatorHistory (stream : list ServerSentEventMessage)
    (accumulator : StreamAccumulator) : list StreamAccumulator :=
  match stream with
  | [] => []
  | chunk :: rest =>
      match loopStep chunk accumulator with
      | Continue accumulator' =>
          accumulator' :: accumulatorHistory rest accumulator'
      | Break | Raise _ => []
      end
  end.

(** The chunks that reach [applyChunkToAccumulator], in order. *)
Fixpoint appliedChunks (stream : list ServerSentEventMessage)
  : list ChatCompletionChunk :=
  match stream with
  | [] => []
  | chunk :: rest =>
      if negb (truthy (sse_data chunk)) then appliedChunks rest
      else
        let data := default EmptyString (sse_data chunk) in
        if String.eqb data "[DONE]" then []
        else match parseChunkDataOrLog data with
             | None => appliedChunks rest
             | Some parsed => parsed :: appliedChunks rest
             end
  end.
End Collect.

(** The tool-call fragments [applyChunkToAccumulator] hands to
    [mergeToolCalls] for a chunk: those of the delta of its first choice. *)
Definition fragments (parsed : ChatCompletionChunk) : list ToolCallDelta :=
  match chunk_choices parsed with
  | Some (choice :: _) =>
      match choice_delta choice with
      | Some delta => default [] (delta_tool_calls delta)
      | None => []
      end
  | _ => []
  end.

(** ** [handleCompletion] *)

Inductive ClientResponse :=
| SSEStream (chunks : list ServerSentEventMessage)   (* streamSSE *)
| JsonBody (response : ChatCompletionResponse).      (* c.json *)

(** [stream.writeSSE(chunk)] of hono/streaming reads [chunk.data] as a
    string: it writes the message when the event has data ([None]: it
    throws, the event having none). *)
Definition writeSSE (message : ServerSentEventMessage)
  : option ServerSentEventMessage :=
  match sse_data message with
  | Some _ => Some message
  | None => None
  end.

(** The callback given to [streamSSE]: the loop writes the events one
    after the other.  When [writeSSE] throws the callback ends, [streamSSE]
    logs the error and closes the stream: the client has been sent the
    events written so far. *)
Fixpoint streamSSE (response : list ServerSentEventMessage)
  : list ServerSentEventMessage :=
  match response with
  | [] => []
  | chunk :: rest =>
      match writeSSE chunk with
      | Some written => written :: streamSSE rest
      | None => []
      end
  end.

Section Handle.
Context `{Environment W} `{JsonParser}.

(** [payload] is the parsed request body.  Logging is left out, and so
    is the token count, whose result is only logged and whose failure
    is caught. *)
Definition handleCompletion (payload : ChatCompletionsPayload)
  : M W ClientResponse :=
  let* _ := external checkRateLimit in
  let* w := getWorld in
  let selectedModel :=
    models w ≫=
      List.find (λ model, bool_decide (model_id model = payload_model payload)) in
  let* _ := (if manualApprove w then external awaitApproval else ret tt) in
  let payload :=
    match payload_max_tokens payload with
    | None =>
        {| payload_messages := payload_messages payload;
           payload_model := payload_model payload;
           payload_max_tokens := selectedModel ≫= model_max_output_tokens;
           payload_stream := payload_stream payload;
           payload_params := payload_params payload |}
    | Some _ => payload
    end in
  let clientWantsStream :=
    bool_decide (payload_stream payload = Some (Some true)) in
  let* response := createChatCompletionsStream payload in
  if clientWantsStream then ret (SSEStream (streamSSE response))
  else
    match collectStreamToResponse response with
    | Returned nonStreamResponse => ret (JsonBody nonStreamResponse)
    | Thrown e => throw e
    end.
End Handle.

End Handler.

(* ===================================================================== *)
(** * Token endpoints ([routes/token/route.ts]) and the [refresh-token]
      command ([refresh-token.ts]) *)
(* ===================================================================== *)

Module TokenRoute.
Import Relay.

(** The JSON values these endpoints send and the command reads. *)
Inductive JsonValue :=
| JString (s : string)
| JBool (b : bool)
| JNumber (n : Z)
| JNull.

(** What [c.json(object, status)] sends: a status and the members of the
    object, in the order written (a member whose value is [undefined] is
    left out by [JSON.stringify]). *)
Record JsonReply := {
  reply_status : Z;
  reply_members : list (string * JsonValue)
}.

(** The collaborators of the refresh endpoint: the credential acquisition
    of [~/services/github/get-copilot-token] ([None] when it rejects) and
    the assignment to [state.copilotToken], which a later read returns. *)
Class TokenSource (W : Type) `{Environment W} := {
  getCopilotToken : W → option string * W;
  setCopilotToken : string → W → W;
  copilotToken_set : ∀ token w, copilotToken (setCopilotToken token w) = Some token
}.

Section Routes.
Context `{TokenSource W}.

(** [tokenRoute.get("/")]; building the reply does not throw, so the
    [catch] branch is not reached. *)
Definition getToken (w : W) : JsonReply :=
  {| reply_status := 200;
     reply_members :=
       match copilotToken w with
       | Some token => [("token", JString token)]
       | None => []
       end |}.

(** [tokenRoute.post("/refresh")] *)
Definition postRefresh (w : W) : JsonReply * W :=
  match getCopilotToken w with
  | (Some token, w1) =>
      ({| reply_status := 200;
          reply_members :=
            [ ("success", JBool true);
              ("message", JString "Token refreshed successfully") ] |},
       setCopilotToken token w1)
  | (None, w1) =>
      ({| reply_status := 500;
          reply_members :=
            [ ("error", JString "Failed to refresh token");
              ("success", JBool false) ] |},
       w1)
  end.
End Routes.
End TokenRoute.

Module RefreshTokenCommand.
Import Relay TokenRoute.

(** The body of a reply as [response.json()] yields it: the promise
    rejects when the body is not JSON; [null] has no readable members
    (reading one throws); any other value has the members listed (none
    for a value that is not an object). *)
Inductive ReplyBody :=
| BodyNotJson
| BodyNull
| BodyMembers (members : list (string * JsonValue)).

Record HttpReply := {
  http_status : Z;
  http_body : ReplyBody
}.

Inductive ConsoleLine :=
| ConsoleSuccess (message : string)
| ConsoleError (message : string) (detail : option JsonValue)
| ConsoleInfo (message : string) (detail : string).

(** What a run prints and the code it exits with ([None]: it returns). *)
Record CommandResult := {
  console : list ConsoleLine;
  exit_code : option Z
}.

(** [data.key]; of two members with the same name [JSON.parse] keeps the
    later one. *)
Fixpoint getMember (members : list (string * JsonValue)) (key : string)
  : option JsonValue :=
  match members with
  | [] => None
  | (k, v) :: rest =>
      match getMember rest key with
      | Some v' => Some v'
      | None => if String.eqb k key then Some v else None
      end
  end.

(** Truthiness of a member that may be absent. *)
Definition jsTruthy (v : option JsonValue) : bool :=
  match v with
  | Some (JString s) => negb (String.eqb s EmptyString)
  | Some (JBool b) => b
  | Some (JNumber n) => negb (n =? 0)
  | Some JNull | None => false
  end.

Definition okStatus (status : Z) : bool := (200 <=? status) && (status <=? 299).

(** The [catch] branch of [run]. *)
Definition connectionFailed (port : string) : CommandResult :=
  {| console := [ ConsoleError "Failed to connect to server:" None;
                  ConsoleInfo "Make sure the server is running on port" port ];
     exit_code := Some 1 |}.

(** [run({ args })]: [post url] is [await fetch(url, { method: "POST" })],
    [None] when the promise rejects. *)
Definition run (port : string) (post : string → option HttpReply)
  : CommandResult :=
  let url := "http://localhost:" +:+ port +:+ "/token/refresh" in
  match post url with
  | None => connectionFailed port
  | Some response =>
      match http_body response with
      | BodyNotJson | BodyNull => connectionFailed port
      | BodyMembers data =>
          if okStatus (http_status response)
             && jsTruthy (getMember data "success")
          then {| console := [ConsoleSuccess "Token refreshed successfully"];
                  exit_code := None |}
          else {| console :=
                    [ ConsoleError "Failed to refresh token:"
                        (Some (if jsTruthy (getMember data "error")
                               then default JNull (getMember data "error")
                               else JString "Unknown error")) ];
                  exit_code := Some 1 |}
      end
  end.

End RefreshTokenCommand.

(* ===================================================================== *)
(** * Vocabulary of the properties *)
(* ===================================================================== *)

(** Definitions that the statements below are written with; none of them
    is part of the program. *)
Module Specs.
Import ModelNormalization ModelsRoute Relay Handler.

(** A loop that appends each element not yet present computes
    [first_occurrences]. *)
Definition pushNew `{EqDecision A} (seen : list A) (x : A) : list A :=
  if decide (x ∈ seen) then seen else seen ++ [x].

(** The variants the outer loop walks through for one id. *)
Definition variants (modelId : string) : list string :=
  modelId :: getModelAliases modelId.

(** ** Traces *)

Definition isRefresh (ev : TraceEvent) : bool :=
  match ev with EvRefresh => true | EvFetch _ => false end.

Definition isFetch (ev : TraceEvent) : bool :=
  match ev with EvFetch _ => true | EvRefresh => false end.

(** The request on the wire asks for a stream. *)
Definition streamsOnWire (ev : TraceEvent) : Prop :=
  match ev with
  | EvFetch req => body_stream (req_body req) = Some (Some true)
  | EvRefresh => True
  end.

(** The request carries the model that [normalizeModelName] returns. *)
Definition carriesModel (model : string) (ev : TraceEvent) : Prop :=
  match ev with
  | EvFetch req => body_model (req_body req) = normalizeModelName model
  | EvRefresh => True
  end.

(** [m] only adds events that satisfy [P] to the trace. *)
Definition preserves {W A} (P : TraceEvent → Prop) (m : M W A) : Prop :=
  ∀ s, Forall P s.2 → Forall P (m s).2.2.

(** ** The loop *)

(** An event whose data reaches [applyChunkToAccumulator] as [parsed]. *)
Definition parsesTo `{JsonParser} (ev : ServerSentEventMessage)
    (parsed : ChatCompletionChunk) : Prop :=
  ∃ data, sse_data ev = Some data ∧ data ≠ EmptyString
          ∧ data ≠ "[DONE]" ∧ JSON_parse data = Some (Some parsed).

(** The [tool_calls] member of the message of a response. *)
Definition toolCallsOf (response : ChatCompletionResponse)
  : option (list ToolCall) :=
  match resp_choices response with
  | choice :: _ => message_tool_calls (cns_message choice)
  | [] => None
  end.

(** [b] keeps every latched field that is already non-empty in [a]. *)
Definition latched (a b : StreamAccumulator) : Prop :=
  (acc_id a ≠ EmptyString → acc_id b = acc_id a)
  ∧ (acc_model a ≠ EmptyString → acc_model b = acc_model a)
  ∧ (acc_created a ≠ 0 → acc_created b = acc_created a)
  ∧ (truthy (acc_systemFingerprint a) = true →
     acc_systemFingerprint b = acc_systemFingerprint a).

(** ** Tool calls *)

(** The first non-empty string of a list of optional strings, or the empty
    string when there is none. *)
Fixpoint firstTruthy (l : list (option string)) : string :=
  match l with
  | [] => EmptyString
  | o :: l' => if truthy o then default EmptyString o else firstTruthy l'
  end.

Definition fragmentName (d : ToolCallDelta) : option string :=
  tcd_function d ≫= fn_name.

Definition fragmentArguments (d : ToolCallDelta) : option string :=
  tcd_function d ≫= fn_arguments.

(** The entry that the fragments [fs] of one index merge to: the first
    non-empty id, the first non-empty name, and all the argument strings
    one after the other. *)
Definition mergedEntry (fs : list ToolCallDelta) : option ToolCall :=
  match fs with
  | [] => None
  | _ :: _ =>
      Some {| call_id := firstTruthy (tcd_id <$> fs);
              call_name := firstTruthy (fragmentName <$> fs);
              call_arguments :=
                foldr String.append EmptyString
                  (default EmptyString ∘ fragmentArguments <$> fs) |}
  end.

(** The fragments of [deltas] that carry [index]. *)
Definition fragmentsAt (index : Z) (deltas : list ToolCallDelta)
  : list ToolCallDelta :=
  filter (λ d, tcd_index d = index) deltas.

(** Folding fragments into what the map holds for their index. *)
Definition mergeInto (o : option ToolCall) (fs : list ToolCallDelta)
  : option ToolCall :=
  foldl (λ o d, Some (match o with
                      | None => newEntry d
                      | Some e => fillEntry e d
                      end)) o fs.

(** The map has an entry for the index of [d], with an id and a name
    wherever [d] has them. *)
Definition covers (T : list (Z * ToolCall)) (d : ToolCallDelta) : Prop :=
  ∃ e, toolCallsGet T (tcd_index d) = Some e
       ∧ (truthy (tcd_id d) = true → isEmpty (call_id e) = false)
       ∧ (truthy (fragmentName d) = true → isEmpty (call_name e) = false).

(** ** Splitting a chunk *)

(** [parsed] with the text of the delta of its first choice replaced. *)
Definition withContent (s : string) (parsed : ChatCompletionChunk)
  : ChatCompletionChunk :=
  match chunk_choices parsed with
  | Some (choice :: others) =>
      match choice_delta choice with
      | Some delta =>
          {| chunk_id := chunk_id parsed;
             chunk_model := chunk_model parsed;
             chunk_created := chunk_created parsed;
             chunk_system_fingerprint := chunk_system_fingerprint parsed;
             chunk_usage := chunk_usage parsed;
             chunk_choices :=
               Some ({| choice_delta :=
                          Some {| delta_content := Some s;
                                  delta_tool_calls := delta_tool_calls delta |};
                        choice_finish_reason := choice_finish_reason choice |}
                     :: others) |}
      | None => parsed
      end
  | _ => parsed
  end.

(** None of the fragments carries argument text. *)
Definition noArguments (ds : list ToolCallDelta) : Prop :=
  Forall (λ d, truthy (fragmentArguments d) = false) ds.

(** The accumulator after a chunk whose first choice has the finish
    reason [finish] and a delta with the text [s] and the fragments
    [toolCalls]. *)
Definition textStep (parsed : ChatCompletionChunk)
    (finish : option FinishReason) (toolCalls : option (list ToolCallDelta))
    (s : string) (a : StreamAccumulator) : StreamAccumulator :=
  {| acc_id := acc_id (latch parsed a);
     acc_model := acc_model (latch parsed a);
     acc_created := acc_created (latch parsed a);
     acc_systemFingerprint := acc_systemFingerprint (latch parsed a);
     acc_finishReason := default (acc_finishReason a) finish;
     acc_content := acc_content a +:+ s;
     acc_toolCalls := mergeToolCalls (acc_toolCalls a) (default [] toolCalls);
     acc_usage := match chunk_usage parsed with
                  | Some u => Some u
                  | None => acc_usage a
                  end |}.

End Specs.

(* ===================================================================== *)
(** * Sample collaborators *)
(* ===================================================================== *)

(** Concrete collaborators on which the statements below are exercised:
    a parser that knows the JSON texts of a few chunks, and a world whose
    upstream replies and refresh results are scripted. *)
Module Samples.
Import ModelNormalization ModelsRoute Relay Handler.

(** JSON texts are written with apostrophes in place of double quotes. *)
Definition quoteChar : ascii := ascii_of_nat 34.

Fixpoint json (s : string) : string :=
  match s with
  | EmptyString => EmptyString
  | String c s' =>
      String (if Ascii.eqb c "'"%char then quoteChar else c) (json s')
  end.

Definition emptyChunk : ChatCompletionChunk :=
  {| chunk_id := None; chunk_model := None; chunk_created := None;
     chunk_system_fingerprint := None; chunk_usage := None;
     chunk_choices := None |}.

(** A chunk with the given [id] and one choice. *)
Definition chunkOf (id : option string) (finish : option FinishReason)
    (content : option string) (toolCalls : option (list ToolCallDelta))
  : ChatCompletionChunk :=
  {| chunk_id := id; chunk_model := None; chunk_created := None;
     chunk_system_fingerprint := None; chunk_usage := None;
     chunk_choices :=
       Some [ {| choice_delta :=
                   Some {| delta_content := content;
                           delta_tool_calls := toolCalls |};
                 choice_finish_reason := finish |} ] |}.

Definition fragment (index : Z) (id name arguments : option string)
  : ToolCallDelta :=
  {| tcd_index := index; tcd_id := id;
     tcd_function :=
       match name, arguments with
       | None, None => None
       | _, _ => Some {| fn_name := name; fn_arguments := arguments |}
       end |}.

Definition sampleChunks : list (string * ChatCompletionChunk) :=
  [ ("{}", emptyChunk);
    (json "{'choices':[{'delta':{'content':'Hel'}}]}",
     chunkOf None None (Some "Hel") None);
    (json "{'choices':[{'delta':{'content':'lo'}}]}",
     chunkOf None None (Some "lo") None);
    (json "{'choices':[{'delta':{},'finish_reason':'stop'}]}",
     chunkOf None (Some Stop) None None);
    (json "{'choices':[{'delta':{'content':'Hello'}}]}",
     chunkOf None None (Some "Hello") None);
    (json "{'id':'x','choices':[{'delta':{'content':'a'}}]}",
     chunkOf (Some "x") None (Some "a") None);
    (json "{'id':'y','choices':[{'delta':{'content':'b'}}]}",
     chunkOf (Some "y") None (Some "b") None);
    (json "{'choices':[{'delta':{'tool_calls':[{'index':0,'id':'a','function':{'name':'f','arguments':'{\'x\':'}}]}}]}",
     chunkOf None None None
       (Some [fragment 0 (Some "a") (Some "f") (Some (json "{'x':"))]));
    (json "{'choices':[{'delta':{'tool_calls':[{'index':0,'function':{'arguments':'1}'}}]}}]}",
     chunkOf None None None (Some [fragment 0 None None (Some "1}")]));
    (json "{'choices':[{'delta':{'tool_calls':[{'index':1,'id':'b','function':{'name':'g','arguments':'{}'}}]}}]}",
     chunkOf None None None
       (Some [fragment 1 (Some "b") (Some "g") (Some "{}")]));
    (json "{'choices':[{'delta':{'tool_calls':[{'index':0,'id':'a','function':{'name':'f','arguments':'{}'}}]}}]}",
     chunkOf None None None
       (Some [fragment 0 (Some "a") (Some "f") (Some "{}")]));
    (json "{'choices':[{'delta':{'content':'ab','tool_calls':[{'index':0,'id':'a','function':{'name':'f','arguments':'{}'}}]}}]}",
     chunkOf None None (Some "ab")
       (Some [fragment 0 (Some "a") (Some "f") (Some "{}")]));
    (json "{'choices':[{'delta':{'content':'a','tool_calls':[{'index':0,'id':'a','function':{'name':'f','arguments':'{}'}}]}}]}",
     chunkOf None None (Some "a")
       (Some [fragment 0 (Some "a") (Some "f") (Some "{}")]));
    (json "{'choices':[{'delta':{'content':'b','tool_calls':[{'index':0,'id':'a','function':{'name':'f','arguments':'{}'}}]}}]}",
     chunkOf None None (Some "b")
       (Some [fragment 0 (Some "a") (Some "f") (Some "{}")])) ].

Fixpoint lookupText (table : list (string * ChatCompletionChunk)) (s : string)
  : option ChatCompletionChunk :=
  match table with
  | [] => None
  | (k, c) :: rest => if String.eqb k s then Some c else lookupText rest s
  end.

(** Parses the texts of [sampleChunks] and [null]; rejects the rest. *)
Definition sampleParse (s : string) : option (option ChatCompletionChunk) :=
  match lookupText sampleChunks s with
  | Some c => Some (Some c)
  | None => if String.eqb s "null" then Some None else None
  end.

Definition sampleParser : JsonParser := {| JSON_parse := sampleParse |}.

(** An event that carries only [data]. *)
Definition dataEvent (data : string) : ServerSentEventMessage :=
  {| sse_data := Some data; sse_event := None;
     sse_id := None; sse_retry := None |}.

(** A world whose upstream answers are scripted: each [fetch] consumes
    the next reply, each refresh the next refresh result (a new token
    when it succeeds). *)
Record Scripted := {
  sc_token : option string;
  sc_replies : list (option Response);
  sc_refreshes : list (option string)
}.

Definition scriptedFetch (req : Request) (w : Scripted)
  : option Response * Scripted :=
  match sc_replies w with
  | [] => (None, w)
  | r :: rest =>
      (r, {| sc_token := sc_token w; sc_replies := rest;
             sc_refreshes := sc_refreshes w |})
  end.

Definition scriptedRefresh (w : Scripted) : bool * Scripted :=
  match sc_refreshes w with
  | [] => (false, w)
  | None :: rest =>
      (false, {| sc_token := sc_token w; sc_replies := sc_replies w;
                 sc_refreshes := rest |})
  | Some token :: rest =>
      (true, {| sc_token := Some token; sc_replies := sc_replies w;
                sc_refreshes := rest |})
  end.

Definition scriptedEnvironment : Environment Scripted :=
  {| copilotToken := sc_token;
     copilotHeaders := λ w vision,
       {[ "authorization" := "Bearer " +:+ default EmptyString (sc_token w) ]};
     copilotBaseUrl := λ _, "https://upstream.example";
     fetch := scriptedFetch;
     refreshCopilotTokenOnError := scriptedRefresh;
     events := λ r, [dataEvent (response_body r); dataEvent "[DONE]"];
     checkRateLimit := λ w, (None, w);
     manualApprove := λ _, false;
     awaitApproval := λ w, (None, w);
     models := λ _, None |}.

Definition userMessage (text : string) : Message :=
  {| msg_role := User; msg_content := ContentString text;
     msg_name := None; msg_tool_calls := None; msg_tool_call_id := None |}.

Definition samplePayload (model : string) (stream : option (option bool))
  : ChatCompletionsPayload :=
  {| payload_messages := [userMessage "hi"];
     payload_model := model;
     payload_max_tokens := None;
     payload_stream := stream;
     payload_params := [] |}.

End Samples.

(* ===================================================================== *)
(** * Vocabulary of the further properties *)
(* ===================================================================== *)

Module MoreSpecs.
Import ModelNormalization ModelsRoute Relay Handler TokenRoute
  RefreshTokenCommand Specs.

(** ** Model listing *)

(** The row the listing has for [modelId] when it resolves to [model]. *)
Definition rowOf (modelId : string) (model : Model) : ModelEntry :=
  {| entry_id := modelId;
     entry_object := "model";
     entry_type := "model";
     entry_created := 0;
     entry_created_at := "1970-01-01T00:00:00.000Z";
     entry_owned_by := model_vendor model;
     entry_display_name := model_name model |}.

(** One step of the loop that fills the map of [modelById]. *)
Definition insertModel (m : gmap string Model) (model : Model)
  : gmap string Model :=
  <[model_id model := model]> m.

(** ** Requests *)

(** [payload] with its [stream] member replaced. *)
Definition withStream (flag : option (option bool))
    (payload : ChatCompletionsPayload) : ChatCompletionsPayload :=
  {| payload_messages := payload_messages payload;
     payload_model := payload_model payload;
     payload_max_tokens := payload_max_tokens payload;
     payload_stream := flag;
     payload_params := payload_params payload |}.

(** The catalog entry [handleCompletion] selects: the first one whose id
    is the model id as the client wrote it. *)
Definition selectedModel `{Environment W} (w : W)
    (payload : ChatCompletionsPayload) : option Model :=
  models w ≫=
    List.find (λ model, bool_decide (model_id model = payload_model payload)).

(** The [max_tokens] that goes upstream. *)
Definition forwardedMaxTokens `{Environment W} (w : W)
    (payload : ChatCompletionsPayload) : option Z :=
  match payload_max_tokens payload with
  | Some n => Some n
  | None => selectedModel w payload ≫= model_max_output_tokens
  end.

(** The payload [handleCompletion] hands to the relay. *)
Definition forwardedPayload `{Environment W} (w : W)
    (payload : ChatCompletionsPayload) : ChatCompletionsPayload :=
  {| payload_messages := payload_messages payload;
     payload_model := payload_model payload;
     payload_max_tokens := forwardedMaxTokens w payload;
     payload_stream := payload_stream payload;
     payload_params := payload_params payload |}.

(** The body every request of [handleCompletion] carries. *)
Definition forwardedBody `{Environment W} (w : W)
    (payload : ChatCompletionsPayload) : RequestBody :=
  {| body_messages := payload_messages payload;
     body_model := normalizeModelName (payload_model payload);
     body_max_tokens := forwardedMaxTokens w payload;
     body_stream := Some (Some true);
     body_params := payload_params payload |}.

(** Rate limit, then manual approval when it is switched on: the
    exception that stops the request, if any, and the world afterwards. *)
Definition admission `{Environment W} (w : W) : option Exception * W :=
  match checkRateLimit w with
  | (Some e, w1) => (Some e, w1)
  | (None, w1) => if manualApprove w1 then awaitApproval w1 else (None, w1)
  end.

(** What the client gets from the outcome of the relay. *)
Definition deliver `{JsonParser} {S : Type} (wantsStream : bool)
    (run : Outcome (list ServerSentEventMessage) * S)
  : Outcome ClientResponse * S :=
  match run with
  | (Returned chunks, s) =>
      if wantsStream then (Returned (SSEStream (streamSSE chunks)), s)
      else match collectStreamToResponse chunks with
           | Returned response => (Returned (JsonBody response), s)
           | Thrown e => (Thrown e, s)
           end
  | (Thrown e, s) => (Thrown e, s)
  end.

(** A request with the given property. *)
Definition everyRequest (P : Request → Prop) (ev : TraceEvent) : Prop :=
  match ev with
  | EvFetch req => P req
  | EvRefresh => True
  end.

(** ** The fold *)

(** The text a chunk adds: the content of the delta of its first choice. *)
Definition chunkText (parsed : ChatCompletionChunk) : string :=
  match chunk_choices parsed with
  | Some (choice :: _) =>
      match choice_delta choice with
      | Some delta => default EmptyString (delta_content delta)
      | None => EmptyString
      end
  | _ => EmptyString
  end.

(** The finish reason a chunk states, in its first choice. *)
Definition chunkFinish (parsed : ChatCompletionChunk) : option FinishReason :=
  match chunk_choices parsed with
  | Some (choice :: _) => choice_finish_reason choice
  | _ => None
  end.

(** The exception a chunk makes [applyChunkToAccumulator] throw: no
    [choices], or a first choice without [delta]. *)
Definition shapeError (parsed : ChatCompletionChunk) : option Exception :=
  match chunk_choices parsed with
  | None =>
      Some (TypeError "Cannot read properties of undefined (reading 'at')")
  | Some [] => None
  | Some (choice :: _) =>
      match choice_delta choice with
      | None =>
          Some (TypeError
                  "Cannot read properties of undefined (reading 'content')")
      | Some _ => None
      end
  end.

Fixpoint firstShapeError (chunks : list ChatCompletionChunk)
  : option Exception :=
  match chunks with
  | [] => None
  | parsed :: rest =>
      match shapeError parsed with
      | Some e => Some e
      | None => firstShapeError rest
      end
  end.

(** The accumulator after a chunk that does not make the step throw. *)
Definition applied (a : StreamAccumulator) (parsed : ChatCompletionChunk)
  : StreamAccumulator :=
  {| acc_id := acc_id (latch parsed a);
     acc_model := acc_model (latch parsed a);
     acc_created := acc_created (latch parsed a);
     acc_systemFingerprint := acc_systemFingerprint (latch parsed a);
     acc_finishReason := default (acc_finishReason a) (chunkFinish parsed);
     acc_content := acc_content a +:+ chunkText parsed;
     acc_toolCalls := mergeToolCalls (acc_toolCalls a) (fragments parsed);
     acc_usage := match chunk_usage parsed with
                  | Some u => Some u
                  | None => acc_usage a
                  end |}.

(** All the strings of a list, one after the other. *)
Definition concatStrings (l : list string) : string :=
  foldr String.append EmptyString l.

(** The first number of the list that is present and not zero, or zero. *)
Fixpoint firstNonZero (l : list (option Z)) : Z :=
  match l with
  | [] => 0
  | o :: l' => if default 0 o =? 0 then firstNonZero l' else default 0 o
  end.

(** The message of the only choice of a response. *)
Definition messageOf (response : ChatCompletionResponse)
  : option ResponseMessage :=
  cns_message <$> head (resp_choices response).

(** The accumulator only grows from [a] to [b]: the keys of the map of
    [a] start those of [b], and the text of [a] starts the text of [b]. *)
Definition grows (a b : StreamAccumulator) : Prop :=
  (acc_toolCalls a).*1 `prefix_of` (acc_toolCalls b).*1
  ∧ (∃ s, acc_content b = acc_content a +:+ s)
  ∧ (NoDup (acc_toolCalls a).*1 → NoDup (acc_toolCalls b).*1).

(** The result of [createChatCompletions] that corresponds to a result
    of [createChatCompletionsStream]. *)
Definition asStreamed {S J : Type}
    (run : Outcome (list ServerSentEventMessage) * S)
  : Outcome (Completion J) * S :=
  match run with
  | (Returned chunks, s) => (Returned (Streamed chunks), s)
  | (Thrown e, s) => (Thrown e, s)
  end.

(** The reply of the endpoint as the command's [fetch] receives it: the
    status that [c.json] set, and the members of the object it sent. *)
Definition served (reply : JsonReply) : HttpReply :=
  {| http_status := reply_status reply;
     http_body := BodyMembers (reply_members reply) |}.

(** The address the command posts to. *)
Definition refreshUrl (port : string) : string :=
  "http://localhost:" +:+ port +:+ "/token/refresh".

End MoreSpecs.

(* ===================================================================== *)
(** * Further sample collaborators *)
(* ===================================================================== *)

Module MoreSamples.
Import ModelNormalization ModelsRoute Relay Handler TokenRoute
  RefreshTokenCommand Samples.

(** The scripted world behind a rate limiter that lets nothing through. *)
Definition rejectingEnvironment : Environment Scripted :=
  {| copilotToken := sc_token;
     copilotHeaders := λ w vision,
       {[ "authorization" := "Bearer " +:+ default EmptyString (sc_token w) ]};
     copilotBaseUrl := λ _, "https://upstream.example";
     fetch := scriptedFetch;
     refreshCopilotTokenOnError := scriptedRefresh;
     events := λ r, [dataEvent (response_body r); dataEvent "[DONE]"];
     checkRateLimit := λ w, (Some (Rejected "Rate limit exceeded"), w);
     manualApprove := λ _, false;
     awaitApproval := λ w, (None, w);
     models := λ _, None |}.

(** An event without data, as a block that has only an [event:] line
    gives. *)
Definition silentEvent : ServerSentEventMessage :=
  {| sse_data := None; sse_event := Some "ping";
     sse_id := None; sse_retry := None |}.

(** The scripted world with an upstream that repeats the body after an
    event without data. *)
Definition gappedEnvironment : Environment Scripted :=
  {| copilotToken := sc_token;
     copilotHeaders := λ w vision,
       {[ "authorization" := "Bearer " +:+ default EmptyString (sc_token w) ]};
     copilotBaseUrl := λ _, "https://upstream.example";
     fetch := scriptedFetch;
     refreshCopilotTokenOnError := scriptedRefresh;
     events := λ r, [ dataEvent (response_body r); silentEvent;
                      dataEvent (response_body r); dataEvent "[DONE]" ];
     checkRateLimit := λ w, (None, w);
     manualApprove := λ _, false;
     awaitApproval := λ w, (None, w);
     models := λ _, None |}.

(** A reader of bodies for the examples: a body that begins with a brace
    is read as the text it is, any other body is not JSON. *)
Definition sampleBodyReader : BodyReader string :=
  {| response_json := λ r,
       match response_body r with
       | String "{"%char _ => Returned (response_body r)
       | _ => Thrown (SyntaxError "Unexpected token")
       end |}.

(** The scripted world as a source of credentials: an acquisition takes
    the next scripted outcome, and the stored token is the field of the
    record. *)
Definition scriptedAcquire (w : Scripted) : option string * Scripted :=
  match sc_refreshes w with
  | [] => (None, w)
  | outcome :: rest =>
      (outcome, {| sc_token := sc_token w; sc_replies := sc_replies w;
                   sc_refreshes := rest |})
  end.

Definition scriptedStore (token : string) (w : Scripted) : Scripted :=
  {| sc_token := Some token; sc_replies := sc_replies w;
     sc_refreshes := sc_refreshes w |}.

Definition scriptedTokenSource
  : TokenSource (H:=scriptedEnvironment) Scripted :=
  {| getCopilotToken := scriptedAcquire;
     setCopilotToken := scriptedStore;
     copilotToken_set := λ token w,
       eq_refl (copilotToken (Environment:=scriptedEnvironment)
                  (scriptedStore token w)) |}.

End MoreSamples.

(* ===================================================================== *)
(** * Properties *)
(* ===================================================================== *)

Import Specs.

Section first_occurrences.
Context `{EqDecision A}.
Implicit Types l k : list A.

Lemma elem_of_first_occurrences l x : x ∈ first_occurrences l ↔ x ∈ l.
Proof.
  induction l as [|y l IH]; simpl; [done|].
  rewrite !elem_of_cons, list_elem_of_filter, IH.
  destruct (decide (x = y)); tauto.
Qed.

Lemma NoDup_first_occurrences l : NoDup (first_occurrences l).
Proof.
  induction l as [|y l IH]; simpl; [constructor|].
  constructor; [|by apply NoDup_filter].
  rewrite list_elem_of_filter. tauto.
Qed.

Lemma filter_all (P : A → Prop) `{!∀ x, Decision (P x)} l :
  (∀ x, x ∈ l → P x) → filter P l = l.
Proof.
  induction l as [|y l IH]; intros HP; [done|].
  rewrite filter_cons_True by (apply HP; left).
  f_equal. apply IH. intros x Hx. apply HP. by right.
Qed.

Lemma filter_ext_elem_of (P Q : A → Prop)
    `{!∀ x, Decision (P x)} `{!∀ x, Decision (Q x)} l :
  (∀ x, x ∈ l → (P x ↔ Q x)) → filter P l = filter Q l.
Proof.
  induction l as [|y l IH]; intros HPQ; [done|].
  rewrite !filter_cons.
  assert (filter P l = filter Q l) as ->
    by (apply IH; intros x Hx; apply HPQ; by right).
  pose proof (HPQ y (list_elem_of_here _ _)) as Hy.
  repeat case_decide; tauto.
Qed.

Lemma first_occurrences_app l k :
  first_occurrences (l ++ k)
  = first_occurrences l ++ filter (λ y, y ∉ l) (first_occurrences k).
Proof.
  induction l as [|x l IH]; simpl.
  - symmetry. apply filter_all. intros y _. apply not_elem_of_nil.
  - f_equal. rewrite IH, filter_app. f_equal.
    rewrite list_filter_filter. apply list_filter_iff.
    intros y. rewrite not_elem_of_cons. tauto.
Qed.

Lemma first_occurrences_NoDup l : NoDup l → first_occurrences l = l.
Proof.
  induction 1 as [|x l Hx _ IH]; simpl; [done|].
  rewrite IH. f_equal. apply filter_all. by intros y Hy ->.
Qed.
End first_occurrences.

Lemma foldl_pushNew `{EqDecision A} (l seen : list A) :
  foldl pushNew seen l = seen ++ filter (λ y, y ∉ seen) (first_occurrences l).
Proof.
  revert seen. induction l as [|x l IH]; intros seen; simpl.
  - by rewrite filter_nil, app_nil_r.
  - rewrite IH. unfold pushNew. destruct (decide (x ∈ seen)) as [Hx|Hx].
    + rewrite filter_cons_False by tauto. f_equal.
      symmetry. apply list_filter_filter_l. by intros y Hy ->.
    + rewrite filter_cons_True by done.
      rewrite <-app_assoc. simpl. do 2 f_equal.
      rewrite list_filter_filter. apply list_filter_iff.
      intros y. rewrite not_elem_of_app, list_elem_of_singleton. tauto.
Qed.

(** ** Alias registry *)

Module ModelNormalizationFacts.
Import ModelNormalization Specs.

(** The aliases registered for a name are the keys of the table that
    map to it, in table order. *)
Lemma foldl_addAlias (table : list (string * string))
    (m : gmap string (list string)) (c : string) :
  default [] (foldl addAlias m table !! c)
  = default [] (m !! c) ++ (filter (λ e, e.2 = c) table).*1.
Proof.
  revert m. induction table as [|[a k] table IH]; intros m; simpl.
  - by rewrite app_nil_r.
  - rewrite IH. unfold addAlias. simpl.
    rewrite filter_cons. simpl. destruct (decide (k = c)) as [->|Hk].
    + rewrite lookup_insert_eq. simpl. by rewrite <-app_assoc.
    + by rewrite lookup_insert_ne.
Qed.

Lemma getModelAliases_table (c : string) :
  getModelAliases c = (filter (λ e, e.2 = c) modelAliases).*1.
Proof.
  unfold getModelAliases, reverseModelAliases.
  by rewrite foldl_addAlias, lookup_empty.
Qed.

Lemma elem_of_getModelAliases (a c : string) :
  a ∈ getModelAliases c ↔ (a, c) ∈ modelAliases.
Proof.
  rewrite getModelAliases_table, list_elem_of_fmap. split.
  - intros [[a' c'] [-> [Hc Hin]%list_elem_of_filter]]. simpl in *. by subst.
  - intros Hin. exists (a, c). split; [done|].
    by apply list_elem_of_filter.
Qed.

(** No alias of the table is itself a canonical name of the table. *)
Lemma alias_not_canonical (a c : string) :
  (a, c) ∈ modelAliases → getModelAliases a = [].
Proof.
  intros Hin. rewrite getModelAliases_table.
  unfold modelAliases in *.
  repeat (apply elem_of_cons in Hin as [[= -> ->]|Hin];
          [by vm_compute|]).
  by apply elem_of_nil in Hin.
Qed.

Lemma NoDup_getModelAliases (c : string) : NoDup (getModelAliases c).
Proof.
  rewrite getModelAliases_table.
  assert (NoDup modelAliases.*1) as Hkeys
    by (apply (bool_decide_unpack _); by vm_compute).
  revert Hkeys. generalize modelAliases.
  induction l as [|[a k] l IH]; simpl; intros Hnd; [constructor|].
  apply NoDup_cons in Hnd as [Ha Hnd].
  rewrite filter_cons. simpl. case_decide; simpl; [|by apply IH].
  constructor; [|by apply IH].
  intros Hin. apply Ha. apply list_elem_of_fmap in Hin as [e [-> He]].
  apply list_elem_of_filter in He as [_ He].
  by apply list_elem_of_fmap_2.
Qed.

Lemma not_own_alias (c : string) : c ∉ getModelAliases c.
Proof.
  intros Hin. pose proof Hin as Hin'.
  apply elem_of_getModelAliases, alias_not_canonical in Hin'.
  rewrite Hin' in Hin. by apply elem_of_nil in Hin.
Qed.

Lemma foldl_visitVariant (l expanded : list string) :
  foldl visitVariant (expanded, list_to_set expanded) l
  = (foldl pushNew expanded l, list_to_set (foldl pushNew expanded l)).
Proof.
  revert expanded. induction l as [|x l IH]; intros expanded; simpl; [done|].
  unfold visitVariant at 2, pushNew at 2 4. simpl.
  destruct (decide (x ∈ expanded)) as [Hx|Hx].
  - rewrite decide_True by set_solver. apply IH.
  - rewrite decide_False by set_solver. rewrite <-IH. do 2 f_equal.
    rewrite list_to_set_app_L. set_solver.
Qed.

Lemma foldl_visitModelId (modelIds : list string)
    (st : list string * gset string) :
  foldl visitModelId st modelIds = foldl visitVariant st (modelIds ≫= variants).
Proof.
  revert st. induction modelIds as [|m modelIds IH]; intros st; [done|].
  cbn [foldl mbind list_bind]. rewrite foldl_app, IH. done.
Qed.

Lemma expandModelIdsWithAliases_first_occurrences (modelIds : list string) :
  expandModelIdsWithAliases modelIds
  = first_occurrences (modelIds ≫= variants).
Proof.
  unfold expandModelIdsWithAliases.
  rewrite foldl_visitModelId.
  change (∅ : gset string) with (list_to_set (C:=gset string) (@nil string)).
  rewrite foldl_visitVariant, foldl_pushNew. simpl.
  apply filter_all. intros y _. apply not_elem_of_nil.
Qed.

(** Where the first occurrence of an input id stands in the output. *)
Lemma expand_at_input_id (modelIds : list string) (m : string) :
  m ∈ modelIds →
  ∃ pre post,
    expandModelIdsWithAliases modelIds
    = pre ++ m :: filter (λ a, a ∉ pre) (getModelAliases m) ++ post
    ∧ m ∉ pre.
Proof.
  intros Hm. rewrite expandModelIdsWithAliases_first_occurrences.
  destruct (list_elem_of_split_l _ _ Hm) as (ids1 & ids2 & -> & Hm1).
  rewrite bind_app, bind_cons. unfold variants at 2.
  set (A1 := ids1 ≫= variants). set (A2 := ids2 ≫= variants).
  destruct (decide (m ∈ A1)) as [HA1|HA1].
  - (* [m] came out earlier, as an alias of a previous id *)
    assert (getModelAliases m = []) as Hnil.
    { apply list_elem_of_bind in HA1 as (m' & Hin & Hm').
      unfold variants in Hin. apply elem_of_cons in Hin as [->|Hin]; [done|].
      by eapply alias_not_canonical, elem_of_getModelAliases. }
    rewrite Hnil. simpl.
    assert (m ∈ first_occurrences (A1 ++ m :: A2)) as Hout
      by (apply elem_of_first_occurrences; set_solver).
    destruct (list_elem_of_split_l _ _ Hout) as (pre & post & -> & Hpre).
    by exists pre, post.
  - exists (first_occurrences A1).
    rewrite first_occurrences_app. simpl.
    rewrite filter_cons_True by done.
    rewrite first_occurrences_app, filter_app, filter_app.
    rewrite (first_occurrences_NoDup (getModelAliases m))
      by apply NoDup_getModelAliases.
    eexists. split.
    + do 2 f_equal. f_equal.
      rewrite (filter_all (λ y, y ≠ m)).
      * apply list_filter_iff. intros y.
        by rewrite elem_of_first_occurrences.
      * intros y Hy ->. by apply (not_own_alias m).
    + by rewrite elem_of_first_occurrences.
Qed.
End ModelNormalizationFacts.

Module AliasClaims.
Import ModelNormalization ModelsRoute Specs ModelNormalizationFacts.

(** C8, as the code has it: for every list of model ids the expansion has
    no duplicates, lists the ids and their aliases in first-seen order,
    and the first occurrence of every input id is immediately followed
    by those of its aliases that did not come out earlier; the listing
    for the catalog [claude-opus-4.6-1m] has the three expected rows. *)
Theorem expandModelIdsWithAliases_first_seen (modelIds : list string) :
  let out := expandModelIdsWithAliases modelIds in
  NoDup out
  ∧ out = first_occurrences (modelIds ≫= λ m, m :: getModelAliases m)
  ∧ Forall (λ m, ∃ pre post,
              out = pre ++ m :: filter (λ a, a ∉ pre) (getModelAliases m) ++ post
              ∧ m ∉ pre) modelIds
  ∧ ∀ name vendor limit,
      entry_id <$> list_data (listModels (Some
        [ {| model_id := "claude-opus-4.6-1m"; model_name := name;
             model_vendor := vendor; model_max_output_tokens := limit |} ]))
      = [ "claude-opus-4.6-1m"; "claude-opus-4-6[1M]"; "claude-opus-4-6" ].
Proof.
  cbv zeta. split; [|split; [|split]].
  - rewrite expandModelIdsWithAliases_first_occurrences.
    apply NoDup_first_occurrences.
  - apply expandModelIdsWithAliases_first_occurrences.
  - apply Forall_forall. intros m Hm. by apply expand_at_input_id.
  - intros name vendor limit. by vm_compute.
Qed.

(** C8 as stated fails when an alias is listed before its canonical id:
    the canonical id is then not followed by all of its aliases. *)
Lemma expandModelIdsWithAliases_alias_first :
  expandModelIdsWithAliases ["claude-opus-4-6"; "claude-opus-4.6-1m"]
  = ["claude-opus-4-6"; "claude-opus-4.6-1m"; "claude-opus-4-6[1M]"]
  ∧ ¬ ∃ pre post,
        expandModelIdsWithAliases ["claude-opus-4-6"; "claude-opus-4.6-1m"]
        = pre ++ "claude-opus-4.6-1m"
              :: getModelAliases "claude-opus-4.6-1m" ++ post.
Proof.
  split; [by vm_compute|].
  intros (pre & post & Heq). vm_compute in Heq.
  destruct pre as [|? [|? [|? [|? pre]]]]; simplify_eq.
Qed.
End AliasClaims.

(** ** Upstream relay *)

Module RelayFacts.
Import Specs ModelNormalization ModelsRoute Relay Handler.

Section Preservation.
Context {W : Type} (P : TraceEvent → Prop).

Lemma preserves_ret {A} (a : A) : preserves P (ret (W:=W) a).
Proof. by intros s Hs. Qed.

Lemma preserves_throw {A} e : preserves P (throw (W:=W) (A:=A) e).
Proof. by intros s Hs. Qed.

Lemma preserves_getWorld : preserves P (getWorld (W:=W)).
Proof. by intros s Hs. Qed.

Lemma preserves_external f : preserves P (external (W:=W) f).
Proof.
  intros [w tr] Hs. unfold external. simpl.
  by destruct (f w) as [[e|] w'].
Qed.

Lemma preserves_bind {A B} (m : M W A) (k : A → M W B) :
  preserves P m → (∀ a, preserves P (k a)) → preserves P (bind m k).
Proof.
  intros Hm Hk s Hs. unfold bind. specialize (Hm s Hs).
  destruct (m s) as [[a|e] s']; [by apply Hk|done].
Qed.

Lemma preserves_if {A} (b : bool) (m1 m2 : M W A) :
  preserves P m1 → preserves P m2 → preserves P (if b then m1 else m2).
Proof. by destruct b. Qed.
End Preservation.

Section Relay.
Context `{Environment W} (P : TraceEvent → Prop).

Lemma preserves_callRefresh : P EvRefresh → preserves P (callRefresh (W:=W)).
Proof.
  intros HP [w tr] Hs. unfold callRefresh. simpl.
  destruct (refreshCopilotTokenOnError w) as [b w']. simpl.
  apply Forall_app. by repeat constructor.
Qed.

Lemma preserves_callFetch req : P (EvFetch req) → preserves P (callFetch req).
Proof.
  intros HP [w tr] Hs. unfold callFetch. simpl.
  destruct (fetch req w) as [[r|] w']; simpl;
    apply Forall_app; by repeat constructor.
Qed.

Lemma preserves_doFetch payload streamOverride :
  (∀ w, P (EvFetch (doFetchRequest w payload streamOverride))) →
  preserves P (doFetch payload streamOverride).
Proof.
  intros HP. unfold doFetch. apply preserves_bind.
  - apply preserves_getWorld.
  - intros w. apply preserves_if;
      [apply preserves_throw | by apply preserves_callFetch].
Qed.

Lemma preserves_eventsOrThrow response : preserves P (eventsOrThrow response).
Proof.
  unfold eventsOrThrow.
  apply preserves_if; [apply preserves_throw | apply preserves_ret].
Qed.

Lemma preserves_createChatCompletionsStream payload :
  P EvRefresh →
  (∀ w, P (EvFetch (doFetchRequest w payload (Some true)))) →
  preserves P (createChatCompletionsStream payload).
Proof.
  intros HR HF. unfold createChatCompletionsStream.
  apply preserves_bind; [by apply preserves_doFetch|]. intros r.
  apply preserves_bind; [|apply preserves_eventsOrThrow].
  apply preserves_if; [|apply preserves_ret].
  apply preserves_bind; [by apply preserves_callRefresh|]. intros b.
  apply preserves_if; [by apply preserves_doFetch | apply preserves_ret].
Qed.

Lemma preserves_handleCompletion `{JsonParser} payload :
  P EvRefresh →
  (∀ w p, payload_model p = payload_model payload →
          P (EvFetch (doFetchRequest w p (Some true)))) →
  preserves P (handleCompletion payload).
Proof.
  intros HR HF. unfold handleCompletion.
  apply preserves_bind; [apply preserves_external|]. intros _.
  apply preserves_bind; [apply preserves_getWorld|]. intros w.
  apply preserves_bind.
  { apply preserves_if; [apply preserves_external | apply preserves_ret]. }
  intros _. apply preserves_bind.
  - apply preserves_createChatCompletionsStream; [done|].
    intros w'. apply HF. by destruct (payload_max_tokens payload).
  - intros response. apply preserves_if; [apply preserves_ret|].
    destruct (collectStreamToResponse response);
      [apply preserves_ret | apply preserves_throw].
Qed.
End Relay.

Section Coordinator.
Context `{Environment W}.

Lemma not_ok_401 (r : Response) : status r = 401 → ok r = false.
Proof. intros Hr. unfold ok. by rewrite Hr. Qed.

(** What the coordinator does after a first 401. *)
Lemma first_attempt_unauthorized payload (w w1 : W) r1 tr :
  truthy (copilotToken w) = true →
  fetch (doFetchRequest w payload (Some true)) w = (Some r1, w1) →
  status r1 = 401 →
  createChatCompletionsStream payload (w, tr)
  = let tr1 := tr ++ [EvFetch (doFetchRequest w payload (Some true));
                      EvRefresh] in
    let w2 := (refreshCopilotTokenOnError w1).2 in
    if (refreshCopilotTokenOnError w1).1
    then bind (doFetch payload (Some true)) eventsOrThrow (w2, tr1)
    else (Thrown (HTTPError "Failed to create chat completions" r1),
          (w2, tr1)).
Proof.
  intros Htoken Hfetch Hstatus.
  unfold createChatCompletionsStream, bind, doFetch, bind, getWorld,
    callFetch, callRefresh. simpl.
  rewrite Htoken. simpl. rewrite Hfetch, Hstatus. simpl.
  destruct (refreshCopilotTokenOnError w1) as [[|] w2]; simpl.
  - rewrite <-app_assoc. simpl.
    destruct (truthy (copilotToken w2)); simpl; [|done].
    by destruct (fetch _ w2) as [[r2|] w3].
  - unfold eventsOrThrow. rewrite (not_ok_401 r1) by done.
    simpl. unfold throw. by rewrite <-app_assoc.
Qed.

(** The retry adds at most one request, and nothing else, to the trace. *)
Lemma retry_trace payload (w2 : W) tr :
  (bind (doFetch payload (Some true)) eventsOrThrow (w2, tr)).2.2 = tr
  ∨ (bind (doFetch payload (Some true)) eventsOrThrow (w2, tr)).2.2
    = tr ++ [EvFetch (doFetchRequest w2 payload (Some true))].
Proof.
  unfold bind, doFetch, bind, getWorld, callFetch, eventsOrThrow. simpl.
  destruct (truthy (copilotToken w2)); simpl; [|by left].
  destruct (fetch _ w2) as [[r2|] w3]; simpl; [|by right].
  destruct (ok r2); by right.
Qed.

Lemma second_attempt_unauthorized payload (w2 w3 : W) r2 tr :
  truthy (copilotToken w2) = true →
  fetch (doFetchRequest w2 payload (Some true)) w2 = (Some r2, w3) →
  status r2 = 401 →
  bind (doFetch payload (Some true)) eventsOrThrow (w2, tr)
  = (Thrown (HTTPError "Failed to create chat completions" r2),
     (w3, tr ++ [EvFetch (doFetchRequest w2 payload (Some true))])).
Proof.
  intros Htoken Hfetch Hstatus.
  unfold bind, doFetch, bind, getWorld, callFetch, eventsOrThrow. simpl.
  rewrite Htoken. simpl. rewrite Hfetch. simpl.
  by rewrite (not_ok_401 r2).
Qed.

Lemma doFetch_no_token payload streamOverride (w : W) tr :
  truthy (copilotToken w) = false →
  doFetch payload streamOverride (w, tr) = (Thrown TokenNotFound, (w, tr)).
Proof.
  intros Htoken. unfold doFetch, bind, getWorld. simpl. by rewrite Htoken.
Qed.

Lemma doFetch_token payload streamOverride (w : W) tr :
  truthy (copilotToken w) = true →
  doFetch payload streamOverride (w, tr)
  = callFetch (doFetchRequest w payload streamOverride) (w, tr).
Proof.
  intros Htoken. unfold doFetch, bind, getWorld. simpl. by rewrite Htoken.
Qed.

(** With a credential in place the relay begins with a request. *)
Lemma createChatCompletionsStream_first_request payload (w : W) tr :
  truthy (copilotToken w) = true →
  ∃ rest, (createChatCompletionsStream payload (w, tr)).2.2
          = tr ++ EvFetch (doFetchRequest w payload (Some true)) :: rest.
Proof.
  intros Htoken.
  unfold createChatCompletionsStream, bind at 1.
  rewrite doFetch_token by done. unfold callFetch. simpl.
  destruct (fetch _ w) as [[r1|] w1]; simpl; [|by eexists].
  unfold bind at 1. destruct (status r1 =? 401).
  2:{ unfold ret, eventsOrThrow. exists []. by destruct (ok r1). }
  unfold bind at 1, callRefresh. simpl.
  destruct (refreshCopilotTokenOnError w1) as [[|] w2]; simpl.
  2:{ unfold ret, eventsOrThrow. exists [EvRefresh].
      destruct (ok r1); simpl; by rewrite <-app_assoc. }
  destruct (truthy (copilotToken w2)) eqn:Htoken2.
  2:{ rewrite doFetch_no_token by done. exists [EvRefresh].
      simpl. by rewrite <-app_assoc. }
  rewrite doFetch_token by done. unfold callFetch. simpl.
  destruct (fetch _ w2) as [[r2|] w3]; simpl.
  - unfold eventsOrThrow. eexists [_; _].
    destruct (ok r2); simpl; by rewrite <-!app_assoc.
  - eexists [_; _]. by rewrite <-!app_assoc.
Qed.

(** A request that passes the rate limit and the approval, with a
    credential in place, reaches the upstream: the trace of
    [handleCompletion] begins with the request [doFetch] builds, with the
    override, from a payload that has the client's messages. *)
Lemma handleCompletion_first_request `{JsonParser} payload (w w1 w2 : W) :
  checkRateLimit w = (None, w1) →
  (if manualApprove w1 then awaitApproval w1 else (None, w1)) = (None, w2) →
  truthy (copilotToken w2) = true →
  ∃ p rest,
    payload_messages p = payload_messages payload
    ∧ (handleCompletion payload (w, [])).2.2
      = EvFetch (doFetchRequest w2 p (Some true)) :: rest.
Proof.
  intros Hrate Happroval Htoken.
  unfold handleCompletion, bind at 1, external at 1. simpl. rewrite Hrate.
  unfold bind at 1, getWorld. simpl. unfold bind at 1.
  assert ((if manualApprove w1 then external awaitApproval else ret tt)
            (w1, []) = (Returned tt, (w2, []))) as ->.
  { destruct (manualApprove w1).
    - unfold external. simpl. by rewrite Happroval.
    - by injection Happroval as <-. }
  match goal with
  | |- context [createChatCompletionsStream ?p] => set (forwarded := p)
  end.
  destruct (createChatCompletionsStream_first_request forwarded w2 [] Htoken)
    as [rest Hrest].
  exists forwarded, rest. split; [by destruct (payload_max_tokens payload)|].
  unfold bind.
  destruct (createChatCompletionsStream forwarded (w2, []))
    as [[chunks|e] s']; simpl in *; [|done].
  case_bool_decide; [done|].
  by destruct (collectStreamToResponse chunks).
Qed.
End Coordinator.

Lemma doFetchRequest_stream `{Environment W} (w : W) payload b :
  body_stream (req_body (doFetchRequest w payload (Some b))) = Some (Some b).
Proof. done. Qed.

Lemma doFetchRequest_model `{Environment W} (w : W) payload streamOverride :
  body_model (req_body (doFetchRequest w payload streamOverride))
  = normalizeModelName (payload_model payload).
Proof. by destruct streamOverride. Qed.

(** Outside the names every object inherits, normalization is the
    table lookup with the id itself as fallback. *)
Lemma normalizeModelName_lookup (modelId : string) :
  modelId ∉ "__proto__" :: objectPrototypeMethods →
  normalizeModelName modelId
  = StringValue (default modelId (ownProperty modelAliases modelId)).
Proof.
  intros Hnot. unfold normalizeModelName, getProperty.
  destruct (ownProperty modelAliases modelId); [done|].
  rewrite not_elem_of_cons in Hnot. destruct Hnot as [Hp Hm].
  by rewrite !decide_False.
Qed.

Lemma opus_forwarded_as_canonical `{Environment W} (w : W) payload :
  payload_model payload = "claude-opus-4-6" →
  wireModel (req_body (doFetchRequest w payload (Some true)))
  = MemberString "claude-opus-4.6-1m".
Proof.
  intros Hm. unfold wireModel. by rewrite doFetchRequest_model, Hm.
Qed.
End RelayFacts.

Module RelayClaims.
Import Specs ModelNormalization ModelsRoute Relay Handler RelayFacts.

(** C6: whatever the client's [stream] member is (true, false, null or
    absent), every request that [handleCompletion] sends upstream has
    [stream] set to [true]; and a request is sent: when the rate limit and
    the approval let the client's request pass and a credential is in
    place, the first thing that happens is a request that carries the
    client's messages with [stream] set to [true]. *)
Theorem upstream_request_always_streams `{Environment W} `{JsonParser}
    (payload : ChatCompletionsPayload) (w : W) :
  let trace := (handleCompletion payload (w, [])).2.2 in
  Forall streamsOnWire trace
  ∧ ∀ w1 w2,
      checkRateLimit w = (None, w1) →
      (if manualApprove w1 then awaitApproval w1 else (None, w1))
      = (None, w2) →
      truthy (copilotToken w2) = true →
      ∃ req rest,
        trace = EvFetch req :: rest
        ∧ body_messages (req_body req) = payload_messages payload
        ∧ body_stream (req_body req) = Some (Some true).
Proof.
  cbv zeta. split.
  - apply (preserves_handleCompletion streamsOnWire); [done| |by constructor].
    intros w' p _. apply doFetchRequest_stream.
  - intros w1 w2 Hrate Happroval Htoken.
    destruct (handleCompletion_first_request payload w w1 w2
                Hrate Happroval Htoken) as (p & rest & Hmessages & Htrace).
    exists (doFetchRequest w2 p (Some true)), rest.
    split; [done|]. split; [done|]. apply doFetchRequest_stream.
Qed.

Lemma upstream_request_always_streams_witness :
  let w := {| Samples.sc_token := Some "token";
              Samples.sc_replies :=
                [ Some {| status := 200; response_body := "{}" |} ];
              Samples.sc_refreshes := [] |} in
  let payload := Samples.samplePayload "gpt-4o" (Some (Some false)) in
  ∃ req rest,
    (handleCompletion (H:=Samples.scriptedEnvironment)
       (H0:=Samples.sampleParser) payload (w, [])).2.2
    = EvFetch req :: rest
    ∧ body_messages (req_body req) = payload_messages payload
    ∧ body_stream (req_body req) = Some (Some true).
Proof.
  intros w payload.
  exact (proj2 (upstream_request_always_streams
                  (H:=Samples.scriptedEnvironment)
                  (H0:=Samples.sampleParser) payload w)
           w w eq_refl eq_refl eq_refl).
Defined.

(** C7, at the failing input: for the model id ["toString"] the table
    read finds the method every object inherits, [normalizeModelName]
    returns that function, and the request leaves without a [model]
    member instead of carrying the id unchanged. *)
Theorem model_toString_not_forwarded `{Environment W} (w : W)
    (messages : list Message) (max_tokens : option Z)
    (stream : option (option bool)) (params : list (string * string)) :
  let payload := {| payload_messages := messages;
                    payload_model := "toString";
                    payload_max_tokens := max_tokens;
                    payload_stream := stream;
                    payload_params := params |} in
  normalizeModelName "toString" = InheritedFunction "toString"
  ∧ wireModel (req_body (doFetchRequest w payload (Some true))) = MemberOmitted.
Proof. done. Qed.

(** Every request [handleCompletion] sends carries, as its [model], what
    [normalizeModelName] returned for the client's model id. *)
Lemma upstream_request_carries_normalized_model `{Environment W} `{JsonParser}
    (payload : ChatCompletionsPayload) (w : W) :
  Forall (carriesModel (payload_model payload))
    (handleCompletion payload (w, [])).2.2.
Proof.
  apply (preserves_handleCompletion (carriesModel (payload_model payload)));
    [done| |by constructor].
  intros w' p Hp. unfold carriesModel. by rewrite doFetchRequest_model, Hp.
Qed.

(** C1: when the first attempt answers 401, the credential is refreshed
    exactly once; if the refresh fails the original 401 response is
    raised and nothing more is sent; if it succeeds [doFetch] runs
    exactly once more, in the refreshed world, and its result is final:
    in particular a second 401 is raised as the error of that second
    response, with no further refresh. *)
Theorem refresh_then_retry_once `{Environment W}
    (payload : ChatCompletionsPayload) (w w1 : W) (r1 : Response) :
  truthy (copilotToken w) = true →
  fetch (doFetchRequest w payload (Some true)) w = (Some r1, w1) →
  status r1 = 401 →
  let req1 := doFetchRequest w payload (Some true) in
  let run := createChatCompletionsStream payload (w, []) in
  let refreshed := (refreshCopilotTokenOnError w1).1 in
  let w2 := (refreshCopilotTokenOnError w1).2 in
  let failure := HTTPError "Failed to create chat completions" in
  length (List.filter isRefresh run.2.2) = 1%nat
  ∧ (refreshed = false →
       run = (Thrown (failure r1), (w2, [EvFetch req1; EvRefresh])))
  ∧ (refreshed = true →
       run = bind (doFetch payload (Some true)) eventsOrThrow
               (w2, [EvFetch req1; EvRefresh])
       ∧ (length (List.filter isFetch run.2.2) ≤ 2)%nat
       ∧ ∀ r2 w3,
           truthy (copilotToken w2) = true →
           fetch (doFetchRequest w2 payload (Some true)) w2 = (Some r2, w3) →
           status r2 = 401 →
           run = (Thrown (failure r2),
                  (w3, [EvFetch req1; EvRefresh;
                        EvFetch (doFetchRequest w2 payload (Some true))]))).
Proof.
  intros Htoken Hfetch Hstatus. cbv zeta.
  rewrite (first_attempt_unauthorized payload w w1 r1 []) by done.
  simpl. destruct (refreshCopilotTokenOnError w1) as [[|] w2]; simpl.
  - (* the refresh succeeded *)
    pose proof (retry_trace payload w2
                  [EvFetch (doFetchRequest w payload (Some true)); EvRefresh])
      as [Htr|Htr]; rewrite Htr.
    + split; [done|]. split; [done|]. intros _.
      split; [done|]. split; [simpl; lia|].
      intros r2 w3 Htoken2 Hfetch2 Hstatus2.
      by rewrite (second_attempt_unauthorized payload w2 w3 r2).
    + split; [done|]. split; [done|]. intros _.
      split; [done|]. split; [simpl; lia|].
      intros r2 w3 Htoken2 Hfetch2 Hstatus2.
      by rewrite (second_attempt_unauthorized payload w2 w3 r2).
  - (* the refresh failed *)
    split; [done|]. split; [done|]. intros [=].
Qed.

(** The scripted world answers 401, refreshes, then answers 401 again. *)
Lemma refresh_then_retry_once_witness :
  let w := {| Samples.sc_token := Some "old";
              Samples.sc_replies :=
                [ Some {| status := 401; response_body := "expired" |};
                  Some {| status := 401; response_body := "denied" |} ];
              Samples.sc_refreshes := [Some "new"] |} in
  let w1 := {| Samples.sc_token := Some "old";
               Samples.sc_replies :=
                 [ Some {| status := 401; response_body := "denied" |} ];
               Samples.sc_refreshes := [Some "new"] |} in
  let w3 := {| Samples.sc_token := Some "new";
               Samples.sc_replies := [];
               Samples.sc_refreshes := [] |} in
  let payload := Samples.samplePayload "claude-opus-4-6" None in
  let run := createChatCompletionsStream (H:=Samples.scriptedEnvironment)
               payload (w, []) in
  length (List.filter isRefresh run.2.2) = 1%nat
  ∧ run.1 = Thrown (HTTPError "Failed to create chat completions"
                      {| status := 401; response_body := "denied" |})
  ∧ run.2.1 = w3.
Proof.
  intros w w1 w3 payload run.
  pose proof (refresh_then_retry_once (H:=Samples.scriptedEnvironment)
                payload w w1 {| status := 401; response_body := "expired" |}
                eq_refl eq_refl eq_refl) as (Hcount & _ & Hretry).
  destruct (Hretry eq_refl) as (_ & _ & Hsecond).
  specialize (Hsecond {| status := 401; response_body := "denied" |} w3
                eq_refl eq_refl eq_refl).
  split; [exact Hcount|]. subst run. by rewrite Hsecond.
Defined.
End RelayClaims.

(** ** Stream accumulator: the loop *)

Module CollectFacts.
Import Specs Relay Handler.

Lemma truthy_Some (s : string) : truthy (Some s) = true ↔ s ≠ EmptyString.
Proof.
  simpl. rewrite negb_true_iff. split.
  - intros Hs ->. by rewrite String.eqb_refl in Hs.
  - intros Hs. by apply String.eqb_neq.
Qed.

Lemma isEmpty_true (s : string) : isEmpty s = true ↔ s = EmptyString.
Proof. apply String.eqb_eq. Qed.

Lemma isEmpty_false (s : string) : isEmpty s = false ↔ s ≠ EmptyString.
Proof. apply String.eqb_neq. Qed.

Section Loop.
Context `{JsonParser}.

Lemma loopStep_parsed ev parsed acc :
  parsesTo ev parsed →
  loopStep ev acc
  = match applyChunkToAccumulator parsed acc with
    | Returned acc' => Continue acc'
    | Thrown e => Raise e
    end.
Proof.
  intros (data & Hdata & Hne & Hdone & Hparse).
  unfold loopStep, parseChunkDataOrLog. rewrite Hdata.
  rewrite (proj2 (truthy_Some data) Hne). simpl.
  rewrite (proj2 (String.eqb_neq _ _) Hdone). by rewrite Hparse.
Qed.

Lemma loopStep_malformed ev data acc :
  sse_data ev = Some data → data ≠ "[DONE]" → JSON_parse data = None →
  loopStep ev acc = Continue acc.
Proof.
  intros Hdata Hdone Hparse. unfold loopStep, parseChunkDataOrLog.
  rewrite Hdata. destruct (truthy (Some data)); simpl; [|done].
  rewrite (proj2 (String.eqb_neq _ _) Hdone). by rewrite Hparse.
Qed.

(** An event the loop passes over can be dropped from the stream. *)
Lemma collectLoop_skip before ev after acc :
  (∀ a, loopStep ev a = Continue a) →
  collectLoop (before ++ ev :: after) acc = collectLoop (before ++ after) acc.
Proof.
  intros Hskip. revert acc.
  induction before as [|e before IH]; intros acc; simpl.
  - by rewrite Hskip.
  - destruct (loopStep e acc); [apply IH|done..].
Qed.

(** Replacing an event by two that together have the same effect. *)
Lemma collectLoop_split before ev ev1 ev2 after acc :
  (∀ a, loopStep ev a ≠ Break) →
  (∀ a, match loopStep ev1 a with
        | Continue a1 => loopStep ev2 a1 = loopStep ev a
        | Break | Raise _ => False
        end) →
  collectLoop (before ++ ev1 :: ev2 :: after) acc
  = collectLoop (before ++ ev :: after) acc.
Proof.
  intros Hbreak Hsplit. revert acc.
  induction before as [|e before IH]; intros acc; simpl.
  - specialize (Hsplit acc). specialize (Hbreak acc).
    destruct (loopStep ev1 acc); [|done..].
    simpl. rewrite Hsplit. by destruct (loopStep ev acc).
  - destruct (loopStep e acc); [apply IH|done..].
Qed.
End Loop.
End CollectFacts.

Module CollectClaims.
Import Specs Relay Handler CollectFacts.

(** C4: an event whose data [JSON.parse] rejects is passed over, and the
    response is the one the stream without that event folds to; the
    event itself never makes the fold fail.  (The end-of-stream sentinel
    is recognized before any parsing and is not such an event.) *)
Theorem malformed_event_skipped `{JsonParser}
    (before after : list ServerSentEventMessage)
    (bad : ServerSentEventMessage) (data : string) :
  sse_data bad = Some data →
  data ≠ "[DONE]" →
  JSON_parse data = None →
  (∀ acc, loopStep bad acc = Continue acc)
  ∧ collectStreamToResponse (before ++ bad :: after)
    = collectStreamToResponse (before ++ after).
Proof.
  intros Hdata Hdone Hparse.
  assert (∀ acc, loopStep bad acc = Continue acc) as Hskip
    by (intros acc; by eapply loopStep_malformed).
  split; [done|]. unfold collectStreamToResponse.
  by rewrite collectLoop_skip.
Qed.

Lemma malformed_event_skipped_witness :
  let hel := Samples.dataEvent
               (Samples.json "{'choices':[{'delta':{'content':'Hel'}}]}") in
  let lo := Samples.dataEvent
              (Samples.json "{'choices':[{'delta':{'content':'lo'}}]}") in
  let bad := Samples.dataEvent "{'choices':" in
  collectStreamToResponse (H:=Samples.sampleParser) ([hel] ++ bad :: [lo])
  = collectStreamToResponse (H:=Samples.sampleParser) ([hel] ++ [lo]).
Proof.
  intros hel lo bad.
  refine (proj2 (malformed_event_skipped (H:=Samples.sampleParser)
                   [hel] [lo] bad "{'choices':" _ _ _));
    [reflexivity | discriminate | reflexivity].
Defined.

(** C10: a chunk that parses but has no [choices] member makes the fold
    step throw; the exception leaves the loop, so no response is built,
    wherever in the stream the chunk stands. *)
Theorem chunk_without_choices_throws `{JsonParser}
    (ev : ServerSentEventMessage) (data : string)
    (parsed : ChatCompletionChunk)
    (rest : list ServerSentEventMessage) (acc : StreamAccumulator) :
  sse_data ev = Some data →
  data ≠ EmptyString →
  data ≠ "[DONE]" →
  JSON_parse data = Some (Some parsed) →
  chunk_choices parsed = None →
  let error :=
    TypeError "Cannot read properties of undefined (reading 'at')" in
  applyChunkToAccumulator parsed acc = Thrown error
  ∧ loopStep ev acc = Raise error
  ∧ collectLoop (ev :: rest) acc = Thrown error
  ∧ collectStreamToResponse (ev :: rest) = Thrown error.
Proof.
  intros Hdata Hne Hdone Hparse Hchoices error.
  assert (∀ a, applyChunkToAccumulator parsed a = Thrown error) as Happly
    by (intros a; unfold applyChunkToAccumulator; by rewrite Hchoices).
  assert (∀ a, loopStep ev a = Raise error) as Hstep.
  { intros a. rewrite (loopStep_parsed ev parsed) by (by exists data).
    by rewrite Happly. }
  split; [done|]. split; [done|]. split.
  - simpl. by rewrite Hstep.
  - unfold collectStreamToResponse. simpl. by rewrite Hstep.
Qed.

Lemma chunk_without_choices_throws_witness :
  collectStreamToResponse (H:=Samples.sampleParser) [Samples.dataEvent "{}"]
  = Thrown (TypeError "Cannot read properties of undefined (reading 'at')").
Proof.
  refine (proj2 (proj2 (proj2
    (chunk_without_choices_throws (H:=Samples.sampleParser)
       (Samples.dataEvent "{}") "{}" Samples.emptyChunk []
       createAccumulator _ _ _ _ _))));
    [reflexivity | discriminate | discriminate | reflexivity | reflexivity].
Defined.
End CollectClaims.

(** ** Stream accumulator: latched fields *)

Module LatchFacts.
Import Specs Relay Handler CollectFacts.

(** Runs through the four conditional assignments of [latch], in order. *)
Ltac latch_cases parsed a :=
  unfold latch;
  destruct (isEmpty (acc_id a) && truthy (chunk_id parsed)); simpl;
  destruct (isEmpty (acc_model a) && truthy (chunk_model parsed)); simpl;
  destruct ((acc_created a =? 0)
            && negb (default 0 (chunk_created parsed) =? 0)); simpl;
  destruct (negb (truthy (acc_systemFingerprint a))
            && truthy (chunk_system_fingerprint parsed)); simpl.

Lemma latch_id parsed a :
  acc_id (latch parsed a)
  = if isEmpty (acc_id a) && truthy (chunk_id parsed)
    then default EmptyString (chunk_id parsed) else acc_id a.
Proof. latch_cases parsed a; reflexivity. Qed.

Lemma latch_model parsed a :
  acc_model (latch parsed a)
  = if isEmpty (acc_model a) && truthy (chunk_model parsed)
    then default EmptyString (chunk_model parsed) else acc_model a.
Proof. latch_cases parsed a; reflexivity. Qed.

Lemma latch_created parsed a :
  acc_created (latch parsed a)
  = if (acc_created a =? 0) && negb (default 0 (chunk_created parsed) =? 0)
    then default 0 (chunk_created parsed) else acc_created a.
Proof. latch_cases parsed a; reflexivity. Qed.

Lemma latch_systemFingerprint parsed a :
  acc_systemFingerprint (latch parsed a)
  = if negb (truthy (acc_systemFingerprint a))
       && truthy (chunk_system_fingerprint parsed)
    then chunk_system_fingerprint parsed else acc_systemFingerprint a.
Proof. latch_cases parsed a; reflexivity. Qed.

Lemma latch_rest parsed a :
  acc_finishReason (latch parsed a) = acc_finishReason a
  ∧ acc_content (latch parsed a) = acc_content a
  ∧ acc_toolCalls (latch parsed a) = acc_toolCalls a
  ∧ acc_usage (latch parsed a) = acc_usage a.
Proof. latch_cases parsed a; done. Qed.

(** The statements after the first four leave the latched fields alone. *)
Lemma applyChunk_latched_fields parsed a a' :
  applyChunkToAccumulator parsed a = Returned a' →
  acc_id a' = acc_id (latch parsed a)
  ∧ acc_model a' = acc_model (latch parsed a)
  ∧ acc_created a' = acc_created (latch parsed a)
  ∧ acc_systemFingerprint a' = acc_systemFingerprint (latch parsed a).
Proof.
  unfold applyChunkToAccumulator. intros Happly.
  repeat case_match; simplify_eq; done.
Qed.

Lemma latched_refl a : latched a a.
Proof. by repeat split. Qed.

Lemma latched_trans a b c : latched a b → latched b c → latched a c.
Proof.
  intros (Hi & Hm & Hc & Hf) (Hi' & Hm' & Hc' & Hf').
  repeat split; intros Hne.
  - rewrite <-(Hi Hne). apply Hi'. by rewrite (Hi Hne).
  - rewrite <-(Hm Hne). apply Hm'. by rewrite (Hm Hne).
  - rewrite <-(Hc Hne). apply Hc'. by rewrite (Hc Hne).
  - rewrite <-(Hf Hne). apply Hf'. by rewrite (Hf Hne).
Qed.

Lemma latch_latched parsed a : latched a (latch parsed a).
Proof.
  repeat split; intros Hne.
  - rewrite latch_id. by rewrite (proj2 (isEmpty_false _) Hne).
  - rewrite latch_model. by rewrite (proj2 (isEmpty_false _) Hne).
  - rewrite latch_created. by rewrite (proj2 (Z.eqb_neq _ _) Hne).
  - rewrite latch_systemFingerprint. by rewrite Hne.
Qed.

Lemma applyChunk_latched parsed a a' :
  applyChunkToAccumulator parsed a = Returned a' → latched a a'.
Proof.
  intros (Hi & Hm & Hc & Hf)%applyChunk_latched_fields.
  destruct (latch_latched parsed a) as (Li & Lm & Lc & Lf).
  unfold latched. rewrite Hi, Hm, Hc, Hf. done.
Qed.

Section History.
Context `{JsonParser}.

Lemma loopStep_latched ev a a' : loopStep ev a = Continue a' → latched a a'.
Proof.
  unfold loopStep. intros Hstep.
  repeat case_match; simplify_eq; eauto using latched_refl, applyChunk_latched.
Qed.

Lemma history_latched stream a b :
  b ∈ accumulatorHistory stream a → latched a b.
Proof.
  revert a. induction stream as [|ev stream IH]; intros a; simpl.
  - by intros ?%elem_of_nil.
  - destruct (loopStep ev a) as [a'| |] eqn:Hstep;
      [|by intros ?%elem_of_nil..].
    intros [->|Hb]%elem_of_cons; [by eapply loopStep_latched|].
    eapply latched_trans; [by eapply loopStep_latched | by apply IH].
Qed.

Lemma history_latched_lookup stream acc (i j : nat) a b :
  (i ≤ j)%nat →
  accumulatorHistory stream acc !! i = Some a →
  accumulatorHistory stream acc !! j = Some b →
  latched a b.
Proof.
  revert acc i j. induction stream as [|ev stream IH]; intros acc i j Hij; simpl.
  - by rewrite lookup_nil.
  - destruct (loopStep ev acc) as [a'| |] eqn:Hstep;
      [|by rewrite lookup_nil..].
    destruct i as [|i]; simpl.
    + intros [= ->]. destruct j as [|j]; simpl.
      * intros [= ->]. apply latched_refl.
      * intros Hb. apply (history_latched stream).
        by eapply list_elem_of_lookup_2.
    + destruct j as [|j]; [lia|]. simpl. apply IH. lia.
Qed.
End History.
End LatchFacts.

Module LatchClaims.
Import Specs Relay Handler CollectFacts LatchFacts.

(** C9: take the accumulator after any iteration of the loop and after any
    later one; whichever of id, model, created and system fingerprint is
    non-empty in the earlier state has the same value in the later one. *)
Theorem latched_fields_never_overwritten `{JsonParser}
    (stream : list ServerSentEventMessage) (i j : nat)
    (a b : StreamAccumulator) :
  (i ≤ j)%nat →
  accumulatorHistory stream createAccumulator !! i = Some a →
  accumulatorHistory stream createAccumulator !! j = Some b →
  (acc_id a ≠ EmptyString → acc_id b = acc_id a)
  ∧ (acc_model a ≠ EmptyString → acc_model b = acc_model a)
  ∧ (acc_created a ≠ 0 → acc_created b = acc_created a)
  ∧ (truthy (acc_systemFingerprint a) = true →
     acc_systemFingerprint b = acc_systemFingerprint a).
Proof. apply history_latched_lookup. Qed.

(** A chunk with id [x] followed by a chunk with id [y]: the id stays [x]. *)
Lemma latched_fields_never_overwritten_witness :
  let stream :=
    [ Samples.dataEvent
        (Samples.json "{'id':'x','choices':[{'delta':{'content':'a'}}]}");
      Samples.dataEvent
        (Samples.json "{'id':'y','choices':[{'delta':{'content':'b'}}]}") ] in
  let history :=
    accumulatorHistory (H:=Samples.sampleParser) stream createAccumulator in
  acc_id <$> history = ["x"; "x"]
  ∧ acc_id (default createAccumulator (history !! 1%nat))
    = acc_id (default createAccumulator (history !! 0%nat)).
Proof.
  intros stream history. split; [reflexivity|].
  refine (proj1 (latched_fields_never_overwritten (H:=Samples.sampleParser)
                   stream 0 1
                   (default createAccumulator (history !! 0%nat))
                   (default createAccumulator (history !! 1%nat)) _ _ _) _);
    [lia | reflexivity | reflexivity | discriminate].
Defined.
End LatchClaims.

(** ** Stream accumulator: tool calls *)

Module ToolCallFacts.
Import Specs Relay Handler CollectFacts LatchFacts.

Lemma append_nil_r (s : string) : s +:+ EmptyString = s.
Proof.
  induction s as [|c s IH]; [done|].
  change (String c (s +:+ EmptyString) = String c s). by rewrite IH.
Qed.

Lemma append_assoc (s1 s2 s3 : string) :
  (s1 +:+ s2) +:+ s3 = s1 +:+ (s2 +:+ s3).
Proof.
  induction s1 as [|c s1 IH]; [done|].
  change (String c ((s1 +:+ s2) +:+ s3) = String c (s1 +:+ (s2 +:+ s3))).
  by rewrite IH.
Qed.

Lemma truthy_false_default (o : option string) :
  truthy o = false → default EmptyString o = EmptyString.
Proof.
  destruct o as [s|]; simpl; [|done].
  rewrite negb_false_iff. apply String.eqb_eq.
Qed.

Lemma truthy_true_default (o : option string) :
  truthy o = true → isEmpty (default EmptyString o) = false.
Proof.
  destruct o as [s|]; simpl; [|done]. by rewrite negb_true_iff.
Qed.

(** *** What the merged entry of an index holds *)

(** *** The map as an association list *)

Lemma toolCallsGet_app T T' i :
  toolCallsGet (T ++ T') i
  = match toolCallsGet T i with
    | Some e => Some e
    | None => toolCallsGet T' i
    end.
Proof.
  induction T as [|[k v] T IH]; simpl; [done|]. by destruct (k =? i).
Qed.

Lemma toolCallsGet_replace T k v i :
  toolCallsGet (toolCallsReplace T k v) i
  = if k =? i
    then match toolCallsGet T k with Some _ => Some v | None => None end
    else toolCallsGet T i.
Proof.
  induction T as [|[k' v'] T IH]; simpl; [by destruct (k =? i)|].
  destruct (k' =? k) eqn:Hk'; simpl.
  - apply Z.eqb_eq in Hk'. subst k'. by destruct (k =? i).
  - rewrite IH. destruct (k =? i) eqn:Hk; [|done].
    apply Z.eqb_eq in Hk. subst i. by rewrite Hk'.
Qed.

Lemma toolCallsReplace_keys T k v : (toolCallsReplace T k v).*1 = T.*1.
Proof.
  induction T as [|[k' v'] T IH]; simpl; [done|].
  destruct (k' =? k); csimpl; by rewrite ?IH.
Qed.

Lemma toolCallsReplace_same T k e :
  toolCallsGet T k = Some e → toolCallsReplace T k e = T.
Proof.
  induction T as [|[k' v'] T IH]; simpl; [done|].
  destruct (k' =? k); [by intros [= ->]|]. intros Hget. by rewrite IH.
Qed.

Lemma toolCallsGet_None T k : toolCallsGet T k = None ↔ k ∉ T.*1.
Proof.
  induction T as [|[k' v'] T IH]; simpl.
  - split; [intros _; apply not_elem_of_nil|done].
  - rewrite not_elem_of_cons. destruct (k' =? k) eqn:Hk.
    + apply Z.eqb_eq in Hk. split; [done|]. intros [Hne _]. by subst.
    + apply Z.eqb_neq in Hk. rewrite IH. split; [|tauto].
      intros Hnot. split; [congruence|done].
Qed.

Lemma bind_ext_elem_of {A B} (f g : A → list B) (l : list A) :
  (∀ x, x ∈ l → f x = g x) → l ≫= f = l ≫= g.
Proof.
  induction l as [|x l IH]; intros Hfg; [done|].
  rewrite !bind_cons, IH, (Hfg x); [done|by left|].
  intros y Hy. apply Hfg. by right.
Qed.

(** The values in map order are the entries found through the keys. *)
Lemma values_by_keys T :
  NoDup T.*1 → T.*2 = T.*1 ≫= λ i, option_list (toolCallsGet T i).
Proof.
  induction T as [|[k v] T IH]; [done|]. csimpl.
  intros [Hk Hnd]%NoDup_cons. rewrite Z.eqb_refl. simpl. f_equal.
  rewrite IH by done. apply bind_ext_elem_of. intros i Hi.
  rewrite (proj2 (Z.eqb_neq k i)); [done|]. by intros ->.
Qed.

(** *** One fragment *)

Lemma mergeToolCall_keys T d :
  (mergeToolCall T d).*1 = pushNew T.*1 (tcd_index d).
Proof.
  unfold mergeToolCall, pushNew.
  destruct (toolCallsGet T (tcd_index d)) as [e|] eqn:Hget.
  - rewrite toolCallsReplace_keys, decide_True; [done|].
    destruct (decide (tcd_index d ∈ T.*1)) as [|Hnot]; [done|].
    apply toolCallsGet_None in Hnot. congruence.
  - rewrite decide_False by (by apply toolCallsGet_None).
    by rewrite fmap_app.
Qed.

Lemma toolCallsGet_mergeToolCall T d i :
  toolCallsGet (mergeToolCall T d) i
  = if tcd_index d =? i
    then Some (match toolCallsGet T i with
               | None => newEntry d
               | Some e => fillEntry e d
               end)
    else toolCallsGet T i.
Proof.
  unfold mergeToolCall.
  destruct (toolCallsGet T (tcd_index d)) as [e|] eqn:Hget.
  - rewrite toolCallsGet_replace, Hget.
    destruct (tcd_index d =? i) eqn:Hi; [|done].
    apply Z.eqb_eq in Hi as <-. by rewrite Hget.
  - rewrite toolCallsGet_app. simpl.
    destruct (tcd_index d =? i) eqn:Hi.
    + apply Z.eqb_eq in Hi as <-. by rewrite Hget.
    + by destruct (toolCallsGet T i).
Qed.

(** *** All fragments *)

Lemma mergeToolCalls_keys T ds :
  (mergeToolCalls T ds).*1 = foldl pushNew T.*1 (tcd_index <$> ds).
Proof.
  unfold mergeToolCalls. revert T.
  induction ds as [|d ds IH]; intros T; simpl; [done|].
  by rewrite IH, mergeToolCall_keys.
Qed.

Lemma mergeToolCalls_nil_keys ds :
  (mergeToolCalls [] ds).*1 = first_occurrences (tcd_index <$> ds).
Proof.
  rewrite mergeToolCalls_keys, foldl_pushNew. simpl.
  apply filter_all. intros y _. apply not_elem_of_nil.
Qed.

(** Folding further fragments into an entry. *)
Lemma foldl_fillEntry (e : ToolCall) (fs : list ToolCallDelta) :
  foldl fillEntry e fs
  = {| call_id := if isEmpty (call_id e) then firstTruthy (tcd_id <$> fs)
                  else call_id e;
       call_name := if isEmpty (call_name e)
                    then firstTruthy (fragmentName <$> fs)
                    else call_name e;
       call_arguments :=
         call_arguments e
         +:+ foldr String.append EmptyString
               (default EmptyString ∘ fragmentArguments <$> fs) |}.
Proof.
  revert e. induction fs as [|f fs IH]; intros [id name args]; csimpl.
  - rewrite append_nil_r.
    destruct (isEmpty id) eqn:Hid; [apply isEmpty_true in Hid as ->|];
      (destruct (isEmpty name) eqn:Hname;
         [apply isEmpty_true in Hname as ->|]); done.
  - rewrite IH. unfold fillEntry, fragmentName, fragmentArguments. csimpl.
    f_equal.
    + destruct (isEmpty id) eqn:Hid; simpl; [|by rewrite Hid].
      destruct (truthy (tcd_id f)) eqn:Hf; [|by rewrite Hid].
      by rewrite truthy_true_default.
    + destruct (isEmpty name) eqn:Hname; simpl; [|by rewrite Hname].
      destruct (truthy (tcd_function f ≫= fn_name)) eqn:Hf;
        [|by rewrite Hname].
      by rewrite truthy_true_default.
    + destruct (truthy (tcd_function f ≫= fn_arguments)) eqn:Hf.
      * by rewrite append_assoc.
      * by rewrite (truthy_false_default _ Hf).
Qed.

Lemma mergeInto_Some e fs : mergeInto (Some e) fs = Some (foldl fillEntry e fs).
Proof. revert e. induction fs as [|f fs IH]; intros e; simpl; [done|]. apply IH. Qed.

Lemma mergeInto_None fs : mergeInto None fs = mergedEntry fs.
Proof.
  destruct fs as [|f fs]; [done|]. cbn [mergeInto foldl].
  change (mergeInto (Some (newEntry f)) fs = mergedEntry (f :: fs)).
  rewrite mergeInto_Some, foldl_fillEntry. unfold mergedEntry, newEntry.
  cbn [fmap list_fmap firstTruthy foldr call_id call_name call_arguments
       compose]. f_equal. f_equal.
  - destruct (truthy (tcd_id f)) eqn:Hf.
    + by rewrite truthy_true_default.
    + rewrite (truthy_false_default _ Hf). done.
  - unfold fragmentName at 2.
    destruct (truthy (tcd_function f ≫= fn_name)) eqn:Hf.
    + by rewrite truthy_true_default.
    + rewrite (truthy_false_default _ Hf). done.
Qed.

Lemma toolCallsGet_mergeToolCalls T ds i :
  toolCallsGet (mergeToolCalls T ds) i
  = mergeInto (toolCallsGet T i) (fragmentsAt i ds).
Proof.
  unfold mergeToolCalls, fragmentsAt. revert T.
  induction ds as [|d ds IH]; intros T; simpl; [done|].
  rewrite IH, toolCallsGet_mergeToolCall, filter_cons.
  destruct (tcd_index d =? i) eqn:Hi.
  - apply Z.eqb_eq in Hi. by rewrite decide_True.
  - apply Z.eqb_neq in Hi. by rewrite decide_False.
Qed.

Lemma toolCallsGet_mergeToolCalls_nil ds i :
  toolCallsGet (mergeToolCalls [] ds) i = mergedEntry (fragmentsAt i ds).
Proof. by rewrite toolCallsGet_mergeToolCalls, mergeInto_None. Qed.
End ToolCallFacts.

Module ToolCallOrder.
Import Specs Relay Handler CollectFacts LatchFacts ToolCallFacts.

Lemma applyChunk_toolCalls parsed a a' :
  applyChunkToAccumulator parsed a = Returned a' →
  acc_toolCalls a' = mergeToolCalls (acc_toolCalls a) (fragments parsed).
Proof.
  unfold applyChunkToAccumulator, fragments. intros Happly.
  destruct (latch_rest parsed a) as (_ & _ & Htc & _).
  destruct (chunk_choices parsed) as [[|choice others]|]; simpl in Happly;
    [| |done].
  - simplify_eq. by destruct (chunk_usage parsed); simpl; rewrite Htc.
  - destruct (choice_delta choice) as [delta|]; [|done]. simplify_eq.
    destruct (chunk_usage parsed), (choice_finish_reason choice),
      (delta_content delta), (delta_tool_calls delta);
      simpl; by rewrite Htc.
Qed.

Section Loop.
Context `{JsonParser}.

Lemma collectLoop_toolCalls stream acc acc' :
  collectLoop stream acc = Returned acc' →
  acc_toolCalls acc'
  = mergeToolCalls (acc_toolCalls acc) (appliedChunks stream ≫= fragments).
Proof.
  revert acc. induction stream as [|ev stream IH]; intros acc; simpl.
  - by intros [= ->].
  - unfold loopStep.
    destruct (negb (truthy (sse_data ev))); [apply IH|].
    destruct (String.eqb _ "[DONE]"); [by intros [= ->]|].
    destruct (parseChunkDataOrLog _) as [parsed|]; [|apply IH].
    destruct (applyChunkToAccumulator parsed acc) as [a1|e] eqn:Happly;
      [|done].
    intros Hloop. rewrite (IH _ Hloop), bind_cons.
    unfold mergeToolCalls. rewrite foldl_app.
    by rewrite (applyChunk_toolCalls _ _ _ Happly).
Qed.
End Loop.

(** Shows that a sample event parses to a sample chunk, by evaluation. *)
Ltac sample_parses :=
  eexists;
  split; [reflexivity|split; [discriminate|split; [discriminate|reflexivity]]].

End ToolCallOrder.

Module ToolCallClaims.
Import Specs Relay Handler CollectFacts LatchFacts ToolCallFacts ToolCallOrder.

(** C5: fragments are merged by index.  The first fragment of an index
    makes the entry from its id, name and arguments; a later fragment of
    the index fills an id or name that is still empty and appends its
    arguments; so the entry of an index holds the first non-empty id, the
    first non-empty name and the concatenated arguments of its fragments.
    The two events of the example fold to the single call [a], [f],
    [{"x":1}]. *)
Theorem tool_call_fragments_merged_by_index `{JsonParser}
    (ev1 ev2 : ServerSentEventMessage) :
  parsesTo ev1
    (Samples.chunkOf None None None
       (Some [Samples.fragment 0 (Some "a") (Some "f")
                (Some (Samples.json "{'x':"))])) →
  parsesTo ev2
    (Samples.chunkOf None None None
       (Some [Samples.fragment 0 None None (Some "1}")])) →
  (∀ toolCalls delta,
     toolCallsGet toolCalls (tcd_index delta) = None →
     mergeToolCall toolCalls delta
     = toolCalls ++ [(tcd_index delta, newEntry delta)])
  ∧ (∀ toolCalls delta existing,
       toolCallsGet toolCalls (tcd_index delta) = Some existing →
       toolCallsGet (mergeToolCall toolCalls delta) (tcd_index delta)
       = Some (fillEntry existing delta)
       ∧ (mergeToolCall toolCalls delta).*1 = toolCalls.*1)
  ∧ (∀ deltas index,
       toolCallsGet (mergeToolCalls [] deltas) index
       = mergedEntry (fragmentsAt index deltas))
  ∧ (toolCallsOf <$>
       match collectStreamToResponse [ev1; ev2] with
       | Returned response => Some response
       | Thrown _ => None
       end)
    = Some (Some [ {| call_id := "a"; call_name := "f";
                      call_arguments := Samples.json "{'x':1}" |} ]).
Proof.
  intros Hev1 Hev2. split; [|split; [|split]].
  - intros toolCalls delta Hget. unfold mergeToolCall. by rewrite Hget.
  - intros toolCalls delta existing Hget. split.
    + by rewrite toolCallsGet_mergeToolCall, Z.eqb_refl, Hget.
    + unfold mergeToolCall. rewrite Hget. apply toolCallsReplace_keys.
  - intros deltas index. apply toolCallsGet_mergeToolCalls_nil.
  - unfold collectStreamToResponse. cbn [collectLoop].
    rewrite (loopStep_parsed ev1 _ _ Hev1). cbn.
    rewrite (loopStep_parsed ev2 _ _ Hev2). by vm_compute.
Qed.

Lemma tool_call_fragments_merged_by_index_witness :
  let ev1 := Samples.dataEvent (Samples.json
    "{'choices':[{'delta':{'tool_calls':[{'index':0,'id':'a','function':{'name':'f','arguments':'{\'x\':'}}]}}]}") in
  let ev2 := Samples.dataEvent (Samples.json
    "{'choices':[{'delta':{'tool_calls':[{'index':0,'function':{'arguments':'1}'}}]}}]}") in
  (toolCallsOf <$>
     match collectStreamToResponse (H:=Samples.sampleParser) [ev1; ev2] with
     | Returned response => Some response
     | Thrown _ => None
     end)
  = Some (Some [ {| call_id := "a"; call_name := "f";
                    call_arguments := Samples.json "{'x':1}" |} ]).
Proof.
  intros ev1 ev2.
  refine (proj2 (proj2 (proj2
    (tool_call_fragments_merged_by_index (H:=Samples.sampleParser)
       ev1 ev2 _ _)))).
  - sample_parses.
  - sample_parses.
Defined.

(** C2, as the code has it: when the fold returns, [tool_calls] is absent
    if no fragment was merged, and otherwise lists the merged entries in
    the order in which their indices first arrived (the order in which the
    map got its keys), one entry for each index. *)
Theorem tool_calls_in_arrival_order `{JsonParser}
    (stream : list ServerSentEventMessage)
    (response : ChatCompletionResponse) :
  collectStreamToResponse stream = Returned response →
  let deltas := appliedChunks stream ≫= fragments in
  let indices := first_occurrences (tcd_index <$> deltas) in
  toolCallsOf response
  = match indices with
    | [] => None
    | _ :: _ =>
        Some (indices ≫= λ i, option_list (mergedEntry (fragmentsAt i deltas)))
    end.
Proof.
  unfold collectStreamToResponse.
  destruct (collectLoop stream createAccumulator) as [acc|e] eqn:Hloop;
    [|done].
  intros [= <-]. cbv zeta.
  apply collectLoop_toolCalls in Hloop. simpl in Hloop.
  unfold toolCallsOf, buildResponse. cbn [resp_choices cns_message
    message_tool_calls].
  set (deltas := appliedChunks stream ≫= fragments) in *.
  pose proof (mergeToolCalls_nil_keys deltas) as Hkeys.
  rewrite <-Hloop in Hkeys. rewrite <-Hkeys.
  assert ((acc_toolCalls acc).*2
          = (acc_toolCalls acc).*1
              ≫= λ i, option_list (mergedEntry (fragmentsAt i deltas)))
    as Hvalues.
  { rewrite values_by_keys
      by (rewrite Hkeys; apply NoDup_first_occurrences).
    apply bind_ext_elem_of. intros i _.
    by rewrite Hloop, toolCallsGet_mergeToolCalls_nil. }
  destruct (acc_toolCalls acc) as [|entry entries]; [done|].
  by rewrite Hvalues.
Qed.

Lemma tool_calls_in_arrival_order_witness :
  let ev1 := Samples.dataEvent (Samples.json
    "{'choices':[{'delta':{'tool_calls':[{'index':1,'id':'b','function':{'name':'g','arguments':'{}'}}]}}]}") in
  let ev0 := Samples.dataEvent (Samples.json
    "{'choices':[{'delta':{'tool_calls':[{'index':0,'id':'a','function':{'name':'f','arguments':'{}'}}]}}]}") in
  toolCallsOf (buildResponse
    {| acc_id := EmptyString; acc_model := EmptyString; acc_created := 0;
       acc_systemFingerprint := None; acc_finishReason := Stop;
       acc_content := EmptyString;
       acc_toolCalls :=
         [ (1, {| call_id := "b"; call_name := "g"; call_arguments := "{}" |});
           (0, {| call_id := "a"; call_name := "f"; call_arguments := "{}" |}) ];
       acc_usage := None |})
  = Some [ {| call_id := "b"; call_name := "g"; call_arguments := "{}" |};
           {| call_id := "a"; call_name := "f"; call_arguments := "{}" |} ].
Proof.
  intros ev1 ev0.
  exact (tool_calls_in_arrival_order (H:=Samples.sampleParser)
           [ev1; ev0] _ eq_refl).
Defined.

(** C2 as stated fails when index 1 arrives before index 0: the entry of
    index 1 is listed first. *)
Lemma tool_calls_not_sorted_by_index :
  let ev1 := Samples.dataEvent (Samples.json
    "{'choices':[{'delta':{'tool_calls':[{'index':1,'id':'b','function':{'name':'g','arguments':'{}'}}]}}]}") in
  let ev0 := Samples.dataEvent (Samples.json
    "{'choices':[{'delta':{'tool_calls':[{'index':0,'id':'a','function':{'name':'f','arguments':'{}'}}]}}]}") in
  let call_a := {| call_id := "a"; call_name := "f"; call_arguments := "{}" |} in
  let call_b := {| call_id := "b"; call_name := "g"; call_arguments := "{}" |} in
  let final :=
    {| acc_id := EmptyString; acc_model := EmptyString; acc_created := 0;
       acc_systemFingerprint := None; acc_finishReason := Stop;
       acc_content := EmptyString;
       acc_toolCalls := [(1, call_b); (0, call_a)];
       acc_usage := None |} in
  collectLoop (H:=Samples.sampleParser) [ev1; ev0] createAccumulator
  = Returned final
  ∧ collectStreamToResponse (H:=Samples.sampleParser) [ev1; ev0]
    = Returned (buildResponse final)
  ∧ toolCallsOf (buildResponse final) = Some [call_b; call_a]
  ∧ ¬ StronglySorted Z.lt (acc_toolCalls final).*1.
Proof.
  cbv zeta. split; [reflexivity|]. split; [reflexivity|].
  split; [reflexivity|].
  intros Hsorted. apply StronglySorted_inv in Hsorted as [_ Hfirst].
  apply Forall_inv in Hfirst. simpl in Hfirst. lia.
Qed.
End ToolCallClaims.

(** ** Stream accumulator: splitting a text delta *)

Module SplitFacts.
Import Specs Relay Handler CollectFacts LatchFacts ToolCallFacts ToolCallOrder.

(** *** Latching twice *)

Lemma latch_id_twice p p' a a1 :
  chunk_id p' = chunk_id p → acc_id a1 = acc_id (latch p a) →
  acc_id (latch p' a1) = acc_id (latch p a).
Proof.
  intros Hp Ha1. rewrite latch_id, Hp, Ha1, latch_id.
  destruct (isEmpty (acc_id a)) eqn:Ha; simpl; [|by rewrite Ha].
  destruct (truthy (chunk_id p)) eqn:Ht; [|by rewrite Ha].
  by rewrite truthy_true_default.
Qed.

Lemma latch_model_twice p p' a a1 :
  chunk_model p' = chunk_model p → acc_model a1 = acc_model (latch p a) →
  acc_model (latch p' a1) = acc_model (latch p a).
Proof.
  intros Hp Ha1. rewrite latch_model, Hp, Ha1, latch_model.
  destruct (isEmpty (acc_model a)) eqn:Ha; simpl; [|by rewrite Ha].
  destruct (truthy (chunk_model p)) eqn:Ht; [|by rewrite Ha].
  by rewrite truthy_true_default.
Qed.

Lemma latch_created_twice p p' a a1 :
  chunk_created p' = chunk_created p →
  acc_created a1 = acc_created (latch p a) →
  acc_created (latch p' a1) = acc_created (latch p a).
Proof.
  intros Hp Ha1. rewrite latch_created, Hp, Ha1, latch_created.
  destruct (acc_created a =? 0) eqn:Ha; simpl; [|by rewrite Ha].
  destruct (default 0 (chunk_created p) =? 0) eqn:Ht; simpl; [by rewrite Ha|].
  by rewrite Ht.
Qed.

Lemma latch_systemFingerprint_twice p p' a a1 :
  chunk_system_fingerprint p' = chunk_system_fingerprint p →
  acc_systemFingerprint a1 = acc_systemFingerprint (latch p a) →
  acc_systemFingerprint (latch p' a1) = acc_systemFingerprint (latch p a).
Proof.
  intros Hp Ha1.
  rewrite latch_systemFingerprint, Hp, Ha1, latch_systemFingerprint.
  destruct (truthy (acc_systemFingerprint a)) eqn:Ha; simpl;
    [by rewrite Ha|].
  destruct (truthy (chunk_system_fingerprint p)) eqn:Ht; [|by rewrite Ha].
  by rewrite Ht.
Qed.

(** *** Merging the same fragments twice *)

Lemma fillEntry_keeps e d :
  (isEmpty (call_id e) = false → isEmpty (call_id (fillEntry e d)) = false)
  ∧ (isEmpty (call_name e) = false →
     isEmpty (call_name (fillEntry e d)) = false).
Proof. unfold fillEntry. simpl. split; intros He; by rewrite He. Qed.

Lemma fillEntry_covers e d :
  (truthy (tcd_id d) = true → isEmpty (call_id (fillEntry e d)) = false)
  ∧ (truthy (fragmentName d) = true →
     isEmpty (call_name (fillEntry e d)) = false).
Proof.
  unfold fillEntry, fragmentName. simpl. split; intros Ht; rewrite Ht.
  - destruct (isEmpty (call_id e)) eqn:He; simpl; [|done].
    by apply truthy_true_default.
  - destruct (isEmpty (call_name e)) eqn:He; simpl; [|done].
    by apply truthy_true_default.
Qed.

Lemma covers_mergeToolCall_self T d : covers (mergeToolCall T d) d.
Proof.
  unfold covers. rewrite toolCallsGet_mergeToolCall, Z.eqb_refl.
  eexists. split; [done|].
  destruct (toolCallsGet T (tcd_index d)) as [e|].
  - apply fillEntry_covers.
  - unfold newEntry, fragmentName. simpl.
    split; apply truthy_true_default.
Qed.

Lemma covers_mergeToolCall_other T d d' :
  covers T d → covers (mergeToolCall T d') d.
Proof.
  intros (e & Hget & Hid & Hname). unfold covers.
  rewrite toolCallsGet_mergeToolCall, Hget.
  destruct (tcd_index d' =? tcd_index d); [|by exists e].
  eexists. split; [done|].
  destruct (fillEntry_keeps e d') as [Kid Kname]. split; eauto.
Qed.

Lemma covers_mergeToolCalls_other T ds d :
  covers T d → covers (mergeToolCalls T ds) d.
Proof.
  unfold mergeToolCalls. revert T.
  induction ds as [|d' ds IH]; intros T Hc; simpl; [done|].
  by apply IH, covers_mergeToolCall_other.
Qed.

Lemma covers_mergeToolCalls T ds : Forall (covers (mergeToolCalls T ds)) ds.
Proof.
  revert T. induction ds as [|d ds IH]; intros T; [constructor|].
  constructor; [|apply IH].
  apply (covers_mergeToolCalls_other _ ds), covers_mergeToolCall_self.
Qed.

Lemma mergeToolCall_covered T d :
  covers T d → truthy (fragmentArguments d) = false → mergeToolCall T d = T.
Proof.
  intros (e & Hget & Hid & Hname) Hargs. unfold mergeToolCall.
  rewrite Hget. apply toolCallsReplace_same. rewrite Hget. f_equal.
  unfold fillEntry. unfold fragmentArguments in Hargs.
  unfold fragmentName in Hname. rewrite Hargs. destruct e as [id name args].
  simpl in *. f_equal.
  - destruct (truthy (tcd_id d)); [by rewrite Hid|by rewrite andb_false_r].
  - destruct (truthy (tcd_function d ≫= fn_name));
      [by rewrite Hname|by rewrite andb_false_r].
Qed.

Lemma mergeToolCalls_covered T ds :
  Forall (covers T) ds → noArguments ds → mergeToolCalls T ds = T.
Proof.
  unfold mergeToolCalls, noArguments.
  induction ds as [|d ds IH]; [done|].
  intros [Hd Hds]%Forall_cons [Ha Has]%Forall_cons. simpl.
  rewrite mergeToolCall_covered by done. by apply IH.
Qed.

Lemma mergeToolCalls_twice T ds :
  noArguments ds →
  mergeToolCalls (mergeToolCalls T ds) ds = mergeToolCalls T ds.
Proof.
  intros Hargs. apply mergeToolCalls_covered; [|done].
  apply covers_mergeToolCalls.
Qed.

(** *** A chunk whose first choice carries text *)

Lemma applyChunk_text parsed choice others delta s a :
  chunk_choices parsed = Some (choice :: others) →
  choice_delta choice = Some delta →
  delta_content delta = Some s →
  applyChunkToAccumulator parsed a
  = Returned (textStep parsed (choice_finish_reason choice)
                (delta_tool_calls delta) s a).
Proof.
  intros Hchoices Hdelta Hcontent. unfold applyChunkToAccumulator, textStep.
  rewrite Hchoices. simpl. rewrite Hdelta, Hcontent.
  destruct (latch_rest parsed a) as (Hfr & Hc & Htc & Hu).
  destruct (chunk_usage parsed), (choice_finish_reason choice),
    (delta_tool_calls delta); simpl;
    unfold set_toolCalls, set_content, set_finishReason, set_usage; simpl;
    by rewrite ?Hfr, ?Hc, ?Htc, ?Hu.
Qed.

(** The two halves of a split chunk do together what the chunk does. *)
Lemma applyChunk_split parsed choice others delta s1 s2 a :
  chunk_choices parsed = Some (choice :: others) →
  choice_delta choice = Some delta →
  delta_content delta = Some (s1 +:+ s2) →
  noArguments (default [] (delta_tool_calls delta)) →
  ∃ a1 a',
    applyChunkToAccumulator (withContent s1 parsed) a = Returned a1
    ∧ applyChunkToAccumulator parsed a = Returned a'
    ∧ applyChunkToAccumulator (withContent s2 parsed) a1 = Returned a'.
Proof.
  intros Hchoices Hdelta Hcontent Hargs.
  assert (∀ s b, applyChunkToAccumulator (withContent s parsed) b
                 = Returned (textStep (withContent s parsed)
                               (choice_finish_reason choice)
                               (delta_tool_calls delta) s b))
    as Hhalf.
  { intros s b. unfold withContent. rewrite Hchoices, Hdelta.
    erewrite applyChunk_text; [|reflexivity..]. reflexivity. }
  assert (∀ s, chunk_id (withContent s parsed) = chunk_id parsed
               ∧ chunk_model (withContent s parsed) = chunk_model parsed
               ∧ chunk_created (withContent s parsed) = chunk_created parsed
               ∧ chunk_system_fingerprint (withContent s parsed)
                 = chunk_system_fingerprint parsed
               ∧ chunk_usage (withContent s parsed) = chunk_usage parsed)
    as Hsame.
  { intros s. unfold withContent. by rewrite Hchoices, Hdelta. }
  eexists _, _. split; [apply Hhalf|].
  split; [by apply (applyChunk_text parsed choice others delta)|].
  rewrite Hhalf. f_equal.
  destruct (Hsame s1) as (Hi1 & Hm1 & Hc1 & Hf1 & Hu1).
  destruct (Hsame s2) as (Hi2 & Hm2 & Hc2 & Hf2 & Hu2).
  unfold textStep at 1 3.
  cbn [acc_finishReason acc_content acc_toolCalls acc_usage textStep].
  f_equal.
  - apply latch_id_twice; [done|]. simpl. by rewrite !latch_id, Hi1.
  - apply latch_model_twice; [done|]. simpl. by rewrite !latch_model, Hm1.
  - apply latch_created_twice; [done|]. simpl.
    by rewrite !latch_created, Hc1.
  - apply latch_systemFingerprint_twice; [done|]. simpl.
    by rewrite !latch_systemFingerprint, Hf1.
  - by destruct (choice_finish_reason choice).
  - apply append_assoc.
  - by apply mergeToolCalls_twice.
  - rewrite Hu1, Hu2. by destruct (chunk_usage parsed).
Qed.
End SplitFacts.

Module SplitClaims.
Import Specs Relay Handler CollectFacts LatchFacts ToolCallFacts ToolCallOrder
  SplitFacts.

(** C3, as the code has it: the fold is a function of the event sequence,
    and an event whose chunk carries text, and whose tool-call fragments
    (if any) carry no argument text, can be replaced by two consecutive
    events that carry the two halves of the text and are otherwise the
    same, without changing the response. *)
Theorem text_delta_split `{JsonParser}
    (before after : list ServerSentEventMessage)
    (ev ev1 ev2 : ServerSentEventMessage) (parsed : ChatCompletionChunk)
    (choice : Choice) (others : list Choice) (delta : Delta)
    (s1 s2 : string) :
  chunk_choices parsed = Some (choice :: others) →
  choice_delta choice = Some delta →
  delta_content delta = Some (s1 +:+ s2) →
  noArguments (default [] (delta_tool_calls delta)) →
  parsesTo ev parsed →
  parsesTo ev1 (withContent s1 parsed) →
  parsesTo ev2 (withContent s2 parsed) →
  collectStreamToResponse (before ++ ev1 :: ev2 :: after)
  = collectStreamToResponse (before ++ ev :: after).
Proof.
  intros Hchoices Hdelta Hcontent Hargs Hev Hev1 Hev2.
  unfold collectStreamToResponse.
  rewrite (collectLoop_split before ev ev1 ev2 after); [done| |].
  - intros a. rewrite (loopStep_parsed ev parsed a Hev).
    by destruct (applyChunkToAccumulator parsed a).
  - intros a.
    destruct (applyChunk_split parsed choice others delta s1 s2 a)
      as (a1 & a' & H1 & H' & H2); [done..|].
    rewrite (loopStep_parsed ev1 _ a Hev1), H1.
    rewrite (loopStep_parsed ev2 _ a1 Hev2), H2.
    by rewrite (loopStep_parsed ev parsed a Hev), H'.
Qed.

Lemma text_delta_split_witness :
  let hello := Samples.dataEvent
                 (Samples.json "{'choices':[{'delta':{'content':'Hello'}}]}") in
  let hel := Samples.dataEvent
               (Samples.json "{'choices':[{'delta':{'content':'Hel'}}]}") in
  let lo := Samples.dataEvent
              (Samples.json "{'choices':[{'delta':{'content':'lo'}}]}") in
  let stop := Samples.dataEvent
    (Samples.json "{'choices':[{'delta':{},'finish_reason':'stop'}]}") in
  collectStreamToResponse (H:=Samples.sampleParser) ([] ++ hel :: lo :: [stop])
  = collectStreamToResponse (H:=Samples.sampleParser) ([] ++ hello :: [stop]).
Proof.
  intros hello hel lo stop.
  refine (text_delta_split (H:=Samples.sampleParser) [] [stop] hello hel lo
            (Samples.chunkOf None None (Some "Hello") None)
            _ _ _ "Hel" "lo" eq_refl eq_refl eq_refl _ _ _ _).
  - constructor.
  - sample_parses.
  - sample_parses.
  - sample_parses.
Defined.

(** C3 as stated fails for a chunk that carries text together with a
    tool-call fragment that has argument text: both halves carry the
    fragment, and its arguments are appended twice. *)
Lemma text_delta_split_repeats_arguments :
  let whole := Samples.json
    "{'choices':[{'delta':{'content':'ab','tool_calls':[{'index':0,'id':'a','function':{'name':'f','arguments':'{}'}}]}}]}" in
  let first := Samples.json
    "{'choices':[{'delta':{'content':'a','tool_calls':[{'index':0,'id':'a','function':{'name':'f','arguments':'{}'}}]}}]}" in
  let second := Samples.json
    "{'choices':[{'delta':{'content':'b','tool_calls':[{'index':0,'id':'a','function':{'name':'f','arguments':'{}'}}]}}]}" in
  let parsed :=
    Samples.chunkOf None None (Some "ab")
      (Some [Samples.fragment 0 (Some "a") (Some "f") (Some "{}")]) in
  let split := collectStreamToResponse (H:=Samples.sampleParser)
                 [Samples.dataEvent first; Samples.dataEvent second] in
  let single := collectStreamToResponse (H:=Samples.sampleParser)
                  [Samples.dataEvent whole] in
  Samples.sampleParse whole = Some (Some parsed)
  ∧ Samples.sampleParse first = Some (Some (withContent "a" parsed))
  ∧ Samples.sampleParse second = Some (Some (withContent "b" parsed))
  ∧ (∃ r, single = Returned r
          ∧ toolCallsOf r = Some [ {| call_id := "a"; call_name := "f";
                                      call_arguments := "{}" |} ])
  ∧ (∃ r, split = Returned r
          ∧ toolCallsOf r = Some [ {| call_id := "a"; call_name := "f";
                                      call_arguments := "{}{}" |} ])
  ∧ split ≠ single.
Proof.
  cbv zeta. repeat split; try reflexivity.
  - eexists. split; reflexivity.
  - eexists. split; reflexivity.
  - vm_compute. discriminate.
Qed.
End SplitClaims.

(** ** End-to-end examples *)

Module Examples.
Import Specs ModelNormalization ModelsRoute Relay Handler RelayFacts ToolCallOrder.

(** Three chunks [Hel], [lo] and a finish reason fold to [Hello]. *)
Example hello_collected :
  collectStreamToResponse (H:=Samples.sampleParser)
    (Samples.dataEvent <$>
       [ Samples.json "{'choices':[{'delta':{'content':'Hel'}}]}";
         Samples.json "{'choices':[{'delta':{'content':'lo'}}]}";
         Samples.json "{'choices':[{'delta':{},'finish_reason':'stop'}]}";
         "[DONE]" ])
  = Returned
      {| resp_id := EmptyString;
         resp_object := "chat.completion";
         resp_created := 0;
         resp_model := EmptyString;
         resp_choices :=
           [ {| cns_index := 0;
                cns_message := {| message_role := Assistant;
                                  message_content := Some "Hello";
                                  message_tool_calls := None |};
                cns_finish_reason := Stop |} ];
         resp_system_fingerprint := None;
         resp_usage := None |}.
Proof. reflexivity. Qed.

(** A client that asks for a buffered answer from the alias
    [claude-opus-4-6]: one request leaves, for the canonical model and
    with [stream] set, and the answer comes back as one JSON body. *)
Example buffered_client_end_to_end :
  let w := {| Samples.sc_token := Some "token";
              Samples.sc_replies :=
                [ Some {| status := 200;
                          response_body := Samples.json
                            "{'choices':[{'delta':{'content':'Hello'}}]}" |} ];
              Samples.sc_refreshes := [] |} in
  let run := handleCompletion (H:=Samples.scriptedEnvironment)
               (H0:=Samples.sampleParser)
               (Samples.samplePayload "claude-opus-4-6" (Some (Some false)))
               (w, []) in
  (match run.1 with
   | Returned (JsonBody response) =>
       message_content <$> (cns_message <$> head (resp_choices response))
   | _ => None
   end) = Some (Some "Hello")
  ∧ (λ ev, match ev with
           | EvFetch req => Some (wireModel (req_body req),
                                  body_stream (req_body req))
           | EvRefresh => None
           end) <$> run.2.2
    = [ Some (MemberString "claude-opus-4.6-1m", Some (Some true)) ].
Proof. split; reflexivity. Qed.
End Examples.

(* ===================================================================== *)
(** * Further properties *)
(* ===================================================================== *)

Import MoreSpecs.

(** ** Alias registry and model listing *)

Module AliasExtras.
Import ModelNormalization ModelsRoute Specs MoreSpecs ModelNormalizationFacts.

Lemma ownProperty_elem_of (o : list (string * string)) k v :
  ownProperty o k = Some v → (k, v) ∈ o.
Proof.
  induction o as [|[k' v'] o IH]; simpl; [done|].
  case_decide; [intros [= ->]; subst; by left|].
  intros Hget. right. by apply IH.
Qed.

Lemma elem_of_ownProperty (o : list (string * string)) k v :
  NoDup o.*1 → (k, v) ∈ o → ownProperty o k = Some v.
Proof.
  induction o as [|[k' v'] o IH]; simpl; [by intros _ ?%elem_of_nil|].
  intros [Hk' Hnd]%NoDup_cons [[= -> ->]|Hin]%elem_of_cons.
  - by rewrite decide_True.
  - rewrite decide_False; [by apply IH|].
    intros ->. apply Hk'. by apply (list_elem_of_fmap_2 fst _ (k, v)).
Qed.

Lemma NoDup_alias_keys : NoDup modelAliases.*1.
Proof. apply (bool_decide_unpack _). by vm_compute. Qed.

(** A canonical name of the table is returned as it is. *)
Lemma canonical_fixed a c :
  (a, c) ∈ modelAliases → normalizeModelName c = StringValue c.
Proof.
  unfold modelAliases. intros Hin.
  repeat (apply elem_of_cons in Hin as [[= -> ->]|Hin]; [by vm_compute|]).
  by apply elem_of_nil in Hin.
Qed.

Lemma normalizeModelName_string id s :
  normalizeModelName id = StringValue s →
  ownProperty modelAliases id = Some s
  ∨ (ownProperty modelAliases id = None ∧ s = id).
Proof.
  unfold normalizeModelName, getProperty.
  destruct (ownProperty modelAliases id) as [v|]; simpl.
  - intros [= ->]. by left.
  - repeat case_decide; simpl; intros [=]. by right.
Qed.

(** X1: normalizing twice is normalizing once: when [normalizeModelName]
    returns a string, it returns that string for itself. *)
Theorem normalizeModelName_idempotent (modelId s : string) :
  normalizeModelName modelId = StringValue s →
  normalizeModelName s = StringValue s.
Proof.
  intros Hn. destruct (normalizeModelName_string _ _ Hn) as [Hown|[_ ->]].
  - by eapply canonical_fixed, ownProperty_elem_of.
  - done.
Qed.

Lemma normalizeModelName_idempotent_witness :
  normalizeModelName "claude-opus-4.6-1m" = StringValue "claude-opus-4.6-1m".
Proof.
  exact (normalizeModelName_idempotent "claude-opus-4-6[1M]"
           "claude-opus-4.6-1m" eq_refl).
Defined.

Lemma alias_normalizes (a c : string) :
  a ∈ getModelAliases c → normalizeModelName a = StringValue c.
Proof.
  rewrite elem_of_getModelAliases. intros Hin.
  unfold normalizeModelName, getProperty.
  by rewrite (elem_of_ownProperty _ _ _ NoDup_alias_keys Hin).
Qed.

(** X2: the two lookups are inverse to each other: [a] is among the
    aliases of [c] exactly when [a] differs from [c] and normalizes to it. *)
Theorem aliases_are_what_normalizes (a c : string) :
  a ∈ getModelAliases c ↔ normalizeModelName a = StringValue c ∧ a ≠ c.
Proof.
  split.
  - intros Hin. split; [by apply alias_normalizes|].
    intros ->. by apply (not_own_alias c).
  - intros [Hn Hne]. apply elem_of_getModelAliases.
    destruct (normalizeModelName_string _ _ Hn) as [Hown|[_ ->]]; [|done].
    by apply ownProperty_elem_of.
Qed.

Lemma expand_has_id (modelIds : list string) (x : string) :
  x ∈ modelIds → x ∈ expandModelIdsWithAliases modelIds.
Proof.
  intros Hx.
  rewrite expandModelIdsWithAliases_first_occurrences,
    elem_of_first_occurrences, list_elem_of_bind.
  exists x. split; [by left|done].
Qed.

Lemma expand_has_alias (modelIds : list string) (m x : string) :
  m ∈ modelIds → x ∈ getModelAliases m →
  x ∈ expandModelIdsWithAliases modelIds.
Proof.
  intros Hm Hx.
  rewrite expandModelIdsWithAliases_first_occurrences,
    elem_of_first_occurrences, list_elem_of_bind.
  exists m. split; [by right|done].
Qed.

(** X3: the expansion holds the input ids and their aliases and nothing
    else. *)
Theorem elem_of_expandModelIdsWithAliases (modelIds : list string) (x : string) :
  x ∈ expandModelIdsWithAliases modelIds
  ↔ x ∈ modelIds ∨ ∃ m, m ∈ modelIds ∧ x ∈ getModelAliases m.
Proof.
  split.
  - rewrite expandModelIdsWithAliases_first_occurrences,
      elem_of_first_occurrences, list_elem_of_bind.
    unfold variants.
    intros (m & [->|Hx]%elem_of_cons & Hm); [by left|right; eauto].
  - intros [Hx|(m & Hm & Hx)];
      [by apply expand_has_id|by eapply expand_has_alias].
Qed.

Lemma filter_filter_swap `{EqDecision A} (P Q : A → Prop)
    `{!∀ x, Decision (P x)} `{!∀ x, Decision (Q x)} (l : list A) :
  filter P (filter Q l) = filter Q (filter P l).
Proof. rewrite !list_filter_filter. apply list_filter_iff. tauto. Qed.

Lemma bind_ext_elem_of_list {A B} (f g : A → list B) (l : list A) :
  (∀ x, x ∈ l → f x = g x) → l ≫= f = l ≫= g.
Proof.
  induction l as [|x l IH]; intros Hfg; [done|].
  rewrite !bind_cons, IH, (Hfg x); [done|by left|].
  intros y Hy. apply Hfg. by right.
Qed.

Lemma filter_none {A} (P : A → Prop) `{!∀ x, Decision (P x)} (l : list A) :
  (∀ x, x ∈ l → ¬ P x) → filter P l = [].
Proof.
  induction l as [|y l IH]; intros HP; [done|].
  rewrite filter_cons_False by (apply HP; left).
  apply IH. intros x Hx. apply HP. by right.
Qed.

Lemma first_occurrences_cons `{EqDecision A} (x : A) (l : list A) :
  first_occurrences (x :: l) = x :: filter (λ y, y ≠ x) (first_occurrences l).
Proof. done. Qed.

(** Leaving [x] out of [k] changes nothing outside the variants of [x]. *)
Lemma first_occurrences_bind_without `{EqDecision A}
    (f : A → list A) (x : A) (k : list A) :
  filter (λ z, z ∉ f x) (first_occurrences (filter (λ y, y ≠ x) k ≫= f))
  = filter (λ z, z ∉ f x) (first_occurrences (k ≫= f)).
Proof.
  induction k as [|y k IH]; [done|].
  rewrite filter_cons, (bind_cons _ y k), (first_occurrences_app (f y)),
    filter_app.
  destruct (decide (y ≠ x)) as [Hy|Hy].
  - rewrite bind_cons, first_occurrences_app, filter_app. f_equal.
    assert (∀ X, filter (λ z, z ∉ f x) (filter (λ z, z ∉ f y) X)
                 = filter (λ z, z ∉ f y) (filter (λ z, z ∉ f x) X)) as Hswap
      by (intros X; apply filter_filter_swap).
    by rewrite !Hswap, IH.
  - apply dec_stable in Hy as ->. rewrite IH, list_filter_filter.
    assert (filter (λ z, z ∉ f x) (first_occurrences (f x)) = []) as ->.
    { apply filter_none. intros z Hz Hnot.
      by apply Hnot, elem_of_first_occurrences. }
    simpl. apply list_filter_iff. tauto.
Qed.

(** Dropping repeated elements before mapping them to their variants does
    not change what comes out first. *)
Lemma first_occurrences_bind_first_occurrences `{EqDecision A}
    (f : A → list A) (l : list A) :
  first_occurrences (first_occurrences l ≫= f) = first_occurrences (l ≫= f).
Proof.
  induction l as [|x l IH]; [done|].
  rewrite first_occurrences_cons, !bind_cons, !first_occurrences_app.
  f_equal. by rewrite first_occurrences_bind_without, IH.
Qed.

(** Listing after every element some elements it already brought does not
    change what comes out first. *)
Lemma first_occurrences_bind_repeat `{EqDecision A}
    (f g : A → list A) (l : list A) :
  (∀ x z, z ∈ g x → z ∈ f x) →
  first_occurrences (l ≫= λ x, f x ++ g x) = first_occurrences (l ≫= f).
Proof.
  intros Hg. induction l as [|x l IH]; [done|].
  rewrite !bind_cons, !first_occurrences_app, IH, <-app_assoc. f_equal.
  rewrite (filter_none _ (first_occurrences (g x))), app_nil_l.
  - apply list_filter_iff. intros z. rewrite not_elem_of_app.
    split; [tauto|]. intros Hz. split; [done|]. intros Hzg. by apply Hz, Hg.
  - intros z Hz Hnot. apply Hnot, Hg. by apply elem_of_first_occurrences.
Qed.

Lemma bind_bind {A B C} (f : A → list B) (g : B → list C) (l : list A) :
  (l ≫= f) ≫= g = l ≫= λ x, f x ≫= g.
Proof.
  induction l as [|x l IH]; [done|]. by rewrite !bind_cons, bind_app, IH.
Qed.

Lemma bind_aliases (modelId : string) :
  getModelAliases modelId ≫= variants = getModelAliases modelId.
Proof.
  assert (∀ a, a ∈ getModelAliases modelId → variants a = [a]) as Hvar.
  { intros a Ha. unfold variants.
    by rewrite (alias_not_canonical a modelId)
      by (by apply elem_of_getModelAliases). }
  induction (getModelAliases modelId) as [|a l IH]; [done|].
  rewrite bind_cons, (Hvar a) by (by left). simpl. f_equal.
  apply IH. intros b Hb. apply Hvar. by right.
Qed.

(** X4: expanding an expanded list changes nothing. *)
Theorem expandModelIdsWithAliases_idempotent (modelIds : list string) :
  expandModelIdsWithAliases (expandModelIdsWithAliases modelIds)
  = expandModelIdsWithAliases modelIds.
Proof.
  rewrite !expandModelIdsWithAliases_first_occurrences.
  rewrite first_occurrences_bind_first_occurrences, bind_bind.
  rewrite <-(first_occurrences_bind_repeat variants getModelAliases).
  - f_equal. apply bind_ext_elem_of_list. intros m _.
    change (variants m ≫= variants)
      with ((m :: getModelAliases m) ≫= variants).
    by rewrite bind_cons, bind_aliases.
  - intros m a Ha. unfold variants. by right.
Qed.

(** *** The listing *)

Lemma foldl_insertModel_absent data (acc : gmap string Model) k :
  k ∉ model_id <$> data → foldl insertModel acc data !! k = acc !! k.
Proof.
  revert acc. induction data as [|d data IH]; intros acc Hk; [done|].
  rewrite fmap_cons, not_elem_of_cons in Hk. destruct Hk as [Hd Hk].
  simpl. rewrite IH by done. unfold insertModel. by rewrite lookup_insert_ne.
Qed.

Lemma foldl_insertModel_Some data (acc : gmap string Model) k m :
  foldl insertModel acc data !! k = Some m →
  (m ∈ data ∧ model_id m = k) ∨ acc !! k = Some m.
Proof.
  revert acc. induction data as [|d data IH]; intros acc; simpl; [by right|].
  intros [[Hin Hk]|Hacc]%IH; [left; split; [by right|done]|].
  unfold insertModel in Hacc.
  destruct (decide (model_id d = k)) as [<-|Hne].
  - rewrite lookup_insert_eq in Hacc. simplify_eq. left. split; [by left|done].
  - rewrite lookup_insert_ne in Hacc by done. by right.
Qed.

Lemma modelById_Some data k m :
  modelById data !! k = Some m → m ∈ data ∧ model_id m = k.
Proof.
  intros [?|Hempty]%foldl_insertModel_Some; [done|].
  by rewrite lookup_empty in Hempty.
Qed.

Lemma modelById_None data k :
  k ∉ model_id <$> data → modelById data !! k = None.
Proof.
  intros Hk. unfold modelById.
  change (foldl insertModel ∅ data !! k = None).
  by rewrite foldl_insertModel_absent, lookup_empty.
Qed.

Lemma modelById_NoDup data m :
  NoDup (model_id <$> data) → m ∈ data →
  modelById data !! model_id m = Some m.
Proof.
  unfold modelById. change (NoDup (model_id <$> data) → m ∈ data →
    foldl insertModel ∅ data !! model_id m = Some m).
  generalize (∅ : gmap string Model).
  induction data as [|d data IH]; intros acc Hnd Hm;
    [by apply elem_of_nil in Hm|].
  rewrite fmap_cons in Hnd. apply NoDup_cons in Hnd as [Hd Hnd].
  apply elem_of_cons in Hm as [->|Hm]; simpl.
  - rewrite foldl_insertModel_absent by done.
    unfold insertModel. by rewrite lookup_insert_eq.
  - by apply IH.
Qed.

Lemma elem_of_bind_toEntry byId (l : list string) row :
  row ∈ l ≫= toEntry byId
  ↔ ∃ model, entry_id row ∈ l
             ∧ mapGet byId (normalizeModelName (entry_id row)) = Some model
             ∧ row = rowOf (entry_id row) model.
Proof.
  rewrite list_elem_of_bind. unfold toEntry. split.
  - intros (id & Hrow & Hid).
    destruct (mapGet byId (normalizeModelName id)) as [model|] eqn:Hget;
      [|by apply elem_of_nil in Hrow].
    apply list_elem_of_singleton in Hrow as ->. simpl. by exists model.
  - intros (model & Hid & Hget & Hrow). exists (entry_id row).
    split; [|done]. rewrite Hget, Hrow. by apply list_elem_of_singleton.
Qed.

Lemma entry_ids_bind_toEntry byId (l : list string) :
  entry_id <$> (l ≫= toEntry byId)
  = filter (λ id, is_Some (mapGet byId (normalizeModelName id))) l.
Proof.
  induction l as [|id l IH]; [done|].
  rewrite bind_cons, fmap_app, IH, filter_cons. unfold toEntry at 1.
  destruct (mapGet byId (normalizeModelName id)) as [model|].
  - by rewrite decide_True by eauto.
  - rewrite decide_False; [done|]. by intros [? ?].
Qed.

(** X5: every row of the listing stands for a model of the catalog: its
    id normalizes to the id of that model, and owner and display name are
    that model's; no id is listed twice; without a catalog the listing is
    empty. *)
Theorem listing_rows_come_from_catalog (models : option (list Model)) :
  let rows := list_data (listModels models) in
  Forall (λ row, ∃ model,
            model ∈ default [] models
            ∧ normalizeModelName (entry_id row) = StringValue (model_id model)
            ∧ row = rowOf (entry_id row) model) rows
  ∧ NoDup (entry_id <$> rows)
  ∧ list_data (listModels None) = [].
Proof.
  cbv zeta. unfold listModels. cbn [list_data].
  split; [|split; [|done]].
  - apply Forall_forall. intros row (model & _ & Hget & Hrow)%elem_of_bind_toEntry.
    exists model. unfold mapGet in Hget.
    destruct (normalizeModelName (entry_id row)) as [s| |] eqn:Hn; [|done..].
    apply modelById_Some in Hget as [Hin <-]. done.
  - rewrite entry_ids_bind_toEntry. apply NoDup_filter.
    rewrite expandModelIdsWithAliases_first_occurrences.
    apply NoDup_first_occurrences.
Qed.

(** X6: in a catalog without repeated ids, a model whose id normalizes to
    itself is listed under its id and under each of its aliases, every
    time with its own owner and display name. *)
Theorem listing_has_model_and_aliases (data : list Model) (model : Model) :
  NoDup (model_id <$> data) →
  model ∈ data →
  normalizeModelName (model_id model) = StringValue (model_id model) →
  let rows := list_data (listModels (Some data)) in
  rowOf (model_id model) model ∈ rows
  ∧ Forall (λ a, rowOf a model ∈ rows) (getModelAliases (model_id model)).
Proof.
  intros Hnd Hin Hself. cbv zeta. unfold listModels. cbn [list_data default].
  assert (model_id model ∈ model_id <$> data) as Hid
    by (by apply list_elem_of_fmap_2).
  split.
  - apply elem_of_bind_toEntry. exists model. simpl.
    split; [by apply expand_has_id|].
    split; [|done]. rewrite Hself. simpl. by apply modelById_NoDup.
  - apply Forall_forall. intros a Ha.
    apply elem_of_bind_toEntry. exists model. simpl.
    split; [by eapply expand_has_alias|].
    split; [|done].
    rewrite (alias_normalizes _ _ Ha). simpl.
    by apply modelById_NoDup.
Qed.

Lemma listing_has_model_and_aliases_witness :
  let model := {| model_id := "claude-sonnet-4.6"; model_name := "Sonnet";
                  model_vendor := "Anthropic";
                  model_max_output_tokens := Some 64000 |} in
  rowOf "claude-sonnet-4-6" model ∈ list_data (listModels (Some [model])).
Proof.
  intros model.
  pose proof (listing_has_model_and_aliases [model] model) as Hlisted.
  destruct Hlisted as [_ Haliases].
  - apply (bool_decide_unpack _). by vm_compute.
  - by left.
  - reflexivity.
  - by apply Forall_inv in Haliases.
Defined.

(** X7: a catalog entry whose id is an alias is listed only when the
    canonical id is in the catalog too: without it the entry has no row. *)
Theorem listing_drops_alias_without_canonical (data : list Model)
    (alias canonical : string) :
  (alias, canonical) ∈ modelAliases →
  canonical ∉ model_id <$> data →
  alias ∉ entry_id <$> list_data (listModels (Some data)).
Proof.
  intros Halias Hcanon. unfold listModels. cbn [list_data default].
  rewrite entry_ids_bind_toEntry, list_elem_of_filter.
  intros [[m Hget] _].
  apply elem_of_getModelAliases, alias_normalizes in Halias.
  rewrite Halias in Hget. simpl in Hget.
  by rewrite modelById_None in Hget.
Qed.

Lemma listing_drops_alias_without_canonical_witness :
  "claude-opus-4-6" ∉ entry_id <$> list_data (listModels (Some
    [ {| model_id := "claude-opus-4-6"; model_name := "Opus";
         model_vendor := "Anthropic"; model_max_output_tokens := None |} ])).
Proof.
  apply (listing_drops_alias_without_canonical _ _ "claude-opus-4.6-1m").
  - apply (bool_decide_unpack _). by vm_compute.
  - apply (bool_decide_unpack _). by vm_compute.
Defined.
End AliasExtras.

(** ** Relay and request handler *)

Module RelayExtras.
Import ModelNormalization ModelsRoute Relay Handler Specs MoreSpecs RelayFacts.

Section Relay.
Context `{Environment W} `{BodyReader J}.

(** X8: without a credential nothing is attempted: both entry points
    raise the missing-token error at once, send no request, start no
    refresh and leave the world as it is. *)
Theorem no_token_no_request (payload : ChatCompletionsPayload) (w : W)
    (tr : list TraceEvent) :
  truthy (copilotToken w) = false →
  createChatCompletionsStream payload (w, tr) = (Thrown TokenNotFound, (w, tr))
  ∧ createChatCompletions payload (w, tr) = (Thrown TokenNotFound, (w, tr)).
Proof.
  intros Htoken.
  unfold createChatCompletionsStream, createChatCompletions, bind.
  by rewrite !doFetch_no_token.
Qed.

(** X9: a first answer other than 401 is final: one request, no refresh,
    and the result is the event stream when the answer is [ok], the
    [HTTPError] carrying it otherwise; a rejected [fetch] is raised as it
    is. *)
Theorem first_answer_final_unless_401 (payload : ChatCompletionsPayload)
    (w : W) (tr : list TraceEvent) :
  truthy (copilotToken w) = true →
  let req := doFetchRequest w payload (Some true) in
  match (fetch req w).1 with
  | Some response => status response ≠ 401
  | None => True
  end →
  createChatCompletionsStream payload (w, tr)
  = (match (fetch req w).1 with
     | Some response =>
         if ok response then Returned (events response)
         else Thrown (HTTPError "Failed to create chat completions" response)
     | None => Thrown FetchRejected
     end,
     ((fetch req w).2, tr ++ [EvFetch req])).
Proof.
  intros Htoken req Hstatus.
  unfold createChatCompletionsStream, bind. rewrite doFetch_token by done.
  unfold callFetch. simpl. fold req.
  destruct (fetch req w) as [[response|] w1]; simpl in *; [|done].
  rewrite (proj2 (Z.eqb_neq _ _) Hstatus). unfold ret, eventsOrThrow.
  by destruct (ok response).
Qed.
End Relay.

Lemma first_answer_final_unless_401_witness :
  let w := {| Samples.sc_token := Some "token";
              Samples.sc_replies :=
                [ Some {| status := 429; response_body := "slow down" |} ];
              Samples.sc_refreshes := [Some "new"] |} in
  (createChatCompletionsStream (H:=Samples.scriptedEnvironment)
     (Samples.samplePayload "gpt-4o" None) (w, [])).1
  = Thrown (HTTPError "Failed to create chat completions"
              {| status := 429; response_body := "slow down" |}).
Proof.
  intros w.
  pose proof (first_answer_final_unless_401 (H:=Samples.scriptedEnvironment)
                (Samples.samplePayload "gpt-4o" None) w [] eq_refl) as Hrun.
  cbv zeta in Hrun. rewrite Hrun; [reflexivity|].
  simpl. discriminate.
Defined.

Lemma no_token_no_request_witness :
  let w := {| Samples.sc_token := None;
              Samples.sc_replies :=
                [ Some {| status := 200; response_body := "{}" |} ];
              Samples.sc_refreshes := [] |} in
  createChatCompletionsStream (H:=Samples.scriptedEnvironment)
    (Samples.samplePayload "gpt-4o" None) (w, [])
  = (Thrown TokenNotFound, (w, [])).
Proof.
  intros w.
  exact (proj1 (no_token_no_request (H:=Samples.scriptedEnvironment)
                  (H0:=MoreSamples.sampleBodyReader)
                  (Samples.samplePayload "gpt-4o" None) w [] eq_refl)).
Defined.

Section Handler.
Context `{Environment W} `{JsonParser}.

(** [handleCompletion] step by step. *)
Lemma handleCompletion_steps (payload : ChatCompletionsPayload) (w : W) tr :
  handleCompletion payload (w, tr)
  = match checkRateLimit w with
    | (Some e, w1) => (Thrown e, (w1, tr))
    | (None, w1) =>
        match (if manualApprove w1 then awaitApproval w1 else (None, w1)) with
        | (Some e, w2) => (Thrown e, (w2, tr))
        | (None, w2) =>
            deliver (bool_decide (payload_stream payload = Some (Some true)))
              (createChatCompletionsStream (forwardedPayload w1 payload)
                 (w2, tr))
        end
    end.
Proof.
  unfold handleCompletion, bind at 1, external at 1. simpl.
  destruct (checkRateLimit w) as [[e|] w1]; [done|].
  unfold bind at 1, getWorld. simpl. unfold bind at 1.
  assert ((if manualApprove w1 then external awaitApproval else ret tt) (w1, tr)
          = match (if manualApprove w1 then awaitApproval w1 else (None, w1)) with
            | (Some e, w2) => (Thrown e, (w2, tr))
            | (None, w2) => (Returned tt, (w2, tr))
            end) as ->.
  { destruct (manualApprove w1); [|done]. unfold external. simpl.
    by destruct (awaitApproval w1) as [[e|] w2]. }
  destruct (if manualApprove w1 then awaitApproval w1 else (None, w1))
    as [[e|] w2]; [done|].
  unfold bind, deliver, forwardedPayload, forwardedMaxTokens, selectedModel.
  destruct payload as [msgs model [n|] stream params]; simpl;
    (destruct (createChatCompletionsStream _ (w2, tr)) as [[chunks|e] s];
       [|done]);
    (case_bool_decide; [done|]);
    by destruct (collectStreamToResponse chunks).
Qed.

Lemma deliver_state {S : Type} b
    (run : Outcome (list ServerSentEventMessage) * S) :
  (deliver b run).2 = run.2.
Proof.
  destruct run as [[chunks|e] s]; simpl; [|done].
  destruct b; [done|]. by destruct (collectStreamToResponse chunks).
Qed.

(** The trace of [handleCompletion] is the one of the relay, when the
    request gets that far. *)
Lemma handleCompletion_trace (payload : ChatCompletionsPayload) (w : W) tr :
  (handleCompletion payload (w, tr)).2.2 = tr
  ∨ ∃ w2, (handleCompletion payload (w, tr)).2.2
          = (createChatCompletionsStream
               (forwardedPayload (checkRateLimit w).2 payload) (w2, tr)).2.2.
Proof.
  rewrite handleCompletion_steps.
  destruct (checkRateLimit w) as [[e|] w1]; simpl; [by left|].
  destruct (if manualApprove w1 then awaitApproval w1 else (None, w1))
    as [[e|] w2]; [by left|].
  right. exists w2. by rewrite deliver_state.
Qed.

Lemma handleCompletion_preserves (P : TraceEvent → Prop)
    (payload : ChatCompletionsPayload) (w : W) :
  P EvRefresh →
  (∀ w2, P (EvFetch (doFetchRequest w2
                       (forwardedPayload (checkRateLimit w).2 payload)
                       (Some true)))) →
  Forall P (handleCompletion payload (w, [])).2.2.
Proof.
  intros HR HF.
  destruct (handleCompletion_trace payload w []) as [->|[w2 ->]];
    [constructor|].
  apply (preserves_createChatCompletionsStream P); [done..|constructor].
Qed.

(** X10: a request is stopped before the relay when the rate limiter or,
    with manual approval switched on, the approval step raises: the
    exception reaches the client and nothing is sent upstream. *)
Theorem rejected_request_sends_nothing (payload : ChatCompletionsPayload)
    (w w' : W) (tr : list TraceEvent) (e : Exception) :
  admission w = (Some e, w') →
  handleCompletion payload (w, tr) = (Thrown e, (w', tr)).
Proof.
  unfold admission. rewrite handleCompletion_steps.
  destruct (checkRateLimit w) as [[e1|] w1]; [by intros [= -> ->]|].
  destruct (manualApprove w1); [|done].
  destruct (awaitApproval w1) as [[e2|] w2]; [by intros [= -> ->]|done].
Qed.

(** X11: every request that leaves carries the client's messages and
    other parameters untouched, the normalized model, [stream] set, and as
    [max_tokens] the client's value or, when the client gave none, the
    output limit of the catalog entry whose id is the model id as the
    client wrote it (none when there is no such entry). *)
Theorem forwarded_request_body (payload : ChatCompletionsPayload) (w : W) :
  Forall (everyRequest (λ req,
            req_body req = forwardedBody (checkRateLimit w).2 payload))
    (handleCompletion payload (w, [])).2.2.
Proof. by apply handleCompletion_preserves. Qed.

Lemma isAgentCall_roles (messages : list Message) :
  if existsb isAgentRole messages
  then Exists (λ msg, msg_role msg = Assistant ∨ msg_role msg = Tool) messages
  else Forall (λ msg, msg_role msg ≠ Assistant ∧ msg_role msg ≠ Tool) messages.
Proof.
  induction messages as [|msg messages IH]; simpl; [constructor|].
  unfold isAgentRole at 1.
  destruct (msg_role msg) eqn:Hrole; simpl;
    try (apply Exists_cons_hd; rewrite Hrole; by auto);
    (destruct (existsb isAgentRole messages);
       [by apply Exists_cons_tl
       |constructor; [rewrite Hrole; by split|done]]).
Qed.

(** X12: every request is a POST whose [X-Initiator] header says [agent]
    when some message has the role assistant or tool and [user] when no
    message has, whatever the configured headers hold under that name. *)
Theorem forwarded_request_initiator (payload : ChatCompletionsPayload) (w : W) :
  Forall (everyRequest (λ req,
            req_method req = "POST"
            ∧ ((Exists (λ msg, msg_role msg = Assistant ∨ msg_role msg = Tool)
                  (payload_messages payload)
                ∧ req_headers req !! "X-Initiator" = Some "agent")
               ∨ (Forall (λ msg, msg_role msg ≠ Assistant
                                 ∧ msg_role msg ≠ Tool)
                    (payload_messages payload)
                  ∧ req_headers req !! "X-Initiator" = Some "user"))))
    (handleCompletion payload (w, [])).2.2.
Proof.
  apply handleCompletion_preserves; [done|]. intros w2. simpl.
  split; [done|]. rewrite lookup_insert_eq.
  pose proof (isAgentCall_roles (payload_messages payload)) as Hroles.
  destruct (existsb isAgentRole (payload_messages payload)); [by left|by right].
Qed.

(** The relay does at most: request, refresh, request. *)
Lemma createChatCompletionsStream_trace (payload : ChatCompletionsPayload)
    (w : W) tr :
  let req1 := doFetchRequest w payload (Some true) in
  let w2 := (refreshCopilotTokenOnError (fetch req1 w).2).2 in
  let req2 := doFetchRequest w2 payload (Some true) in
  ∃ sent, (createChatCompletionsStream payload (w, tr)).2.2 = tr ++ sent
          ∧ sent `prefix_of` [EvFetch req1; EvRefresh; EvFetch req2].
Proof.
  cbv zeta. unfold createChatCompletionsStream, bind at 1.
  destruct (truthy (copilotToken w)) eqn:Htoken.
  2:{ rewrite doFetch_no_token by done. exists []. rewrite app_nil_r.
      split; [done|]. apply prefix_nil. }
  rewrite doFetch_token by done. unfold callFetch. simpl.
  destruct (fetch _ w) as [[r1|] w1]; simpl.
  2:{ eexists [_]. split; [done|]. by eexists. }
  unfold bind at 1. destruct (status r1 =? 401).
  2:{ unfold ret, eventsOrThrow. eexists [_].
      split; [by destruct (ok r1)|]. by eexists. }
  unfold bind at 1, callRefresh. simpl.
  destruct (refreshCopilotTokenOnError w1) as [[|] w2]; simpl.
  2:{ unfold ret, eventsOrThrow. eexists [_; _].
      split; [destruct (ok r1); simpl; by rewrite <-app_assoc|].
      by eexists. }
  destruct (truthy (copilotToken w2)) eqn:Htoken2.
  2:{ rewrite doFetch_no_token by done. eexists [_; _].
      split; [simpl; by rewrite <-app_assoc|]. by eexists. }
  rewrite doFetch_token by done. unfold callFetch. simpl.
  destruct (fetch _ w2) as [[r2|] w3]; simpl.
  - unfold eventsOrThrow. eexists [_; _; _].
    split; [destruct (ok r2); simpl; by rewrite <-!app_assoc|]. done.
  - eexists [_; _; _]. split; [by rewrite <-!app_assoc|]. done.
Qed.

(** X13: whatever the upstream and the refresh do, a request of a client
    leads to at most two upstream requests with at most one refresh in
    between: the trace is an initial part of request, refresh, request. *)
Theorem at_most_request_refresh_request (payload : ChatCompletionsPayload)
    (w : W) :
  ∃ req1 req2,
    (handleCompletion payload (w, [])).2.2
    `prefix_of` [EvFetch req1; EvRefresh; EvFetch req2].
Proof.
  destruct (handleCompletion_trace payload w []) as [->|[w2 ->]].
  - exists (doFetchRequest w payload None), (doFetchRequest w payload None).
    apply prefix_nil.
  - destruct (createChatCompletionsStream_trace
                (forwardedPayload (checkRateLimit w).2 payload) w2 [])
      as (sent & -> & Hsent).
    eauto.
Qed.

(** The relay overrides [stream], so the client's value does not reach it. *)
Lemma createChatCompletionsStream_withStream flag
    (payload : ChatCompletionsPayload) (s : W * list TraceEvent) :
  createChatCompletionsStream (withStream flag payload) s
  = createChatCompletionsStream payload s.
Proof. done. Qed.

(** The loop that writes to the client stops before the first event
    without data. *)
Lemma streamSSE_split (chunks : list ServerSentEventMessage) :
  ∃ unsent,
    chunks = streamSSE chunks ++ unsent
    ∧ Forall (λ ev, is_Some (sse_data ev)) (streamSSE chunks)
    ∧ (∀ ev, head unsent = Some ev → sse_data ev = None).
Proof.
  induction chunks as [|chunk chunks (unsent & Hsplit & Hsent & Hcut)]; simpl.
  - exists []. by repeat split.
  - unfold writeSSE. destruct (sse_data chunk) as [data|] eqn:Hdata.
    + exists unsent. split; [simpl; by f_equal|].
      split; [|done]. constructor; [by rewrite Hdata|done].
    + exists (chunk :: chunks). split; [done|]. split; [constructor|].
      by intros ev [= <-].
Qed.

(** X14: a client that does not ask for a stream causes exactly what a
    streaming client causes (same requests, same refresh, same final
    world, same error when the relay fails).  From the events the relay
    returns, the streaming client is sent those before the first event
    without data, and the other client receives, as one JSON body, the
    fold of all of them. *)
Theorem buffered_answer_is_fold_of_streamed (payload : ChatCompletionsPayload)
    (flag : option (option bool)) (w w2 : W) (tr : list TraceEvent) :
  flag ≠ Some (Some true) →
  admission w = (None, w2) →
  let upstream :=
    createChatCompletionsStream
      (forwardedPayload (checkRateLimit w).2 payload) (w2, tr) in
  let streamed :=
    handleCompletion (withStream (Some (Some true)) payload) (w, tr) in
  let buffered := handleCompletion (withStream flag payload) (w, tr) in
  streamed.2 = upstream.2
  ∧ buffered.2 = upstream.2
  ∧ match upstream.1 with
    | Thrown e => streamed.1 = Thrown e ∧ buffered.1 = Thrown e
    | Returned chunks =>
        (∃ sent unsent,
           streamed.1 = Returned (SSEStream sent)
           ∧ chunks = sent ++ unsent
           ∧ Forall (λ ev, is_Some (sse_data ev)) sent
           ∧ (∀ ev, head unsent = Some ev → sse_data ev = None))
        ∧ buffered.1
          = match collectStreamToResponse chunks with
            | Returned response => Returned (JsonBody response)
            | Thrown e => Thrown e
            end
    end.
Proof.
  intros Hflag Hadmitted. cbv zeta. rewrite !handleCompletion_steps.
  unfold admission in Hadmitted.
  destruct (checkRateLimit w) as [[e|] w1]; [done|]. rewrite Hadmitted.
  cbn [snd].
  change (forwardedPayload w1 (withStream flag payload))
    with (withStream flag (forwardedPayload w1 payload)).
  change (forwardedPayload w1 (withStream (Some (Some true)) payload))
    with (withStream (Some (Some true)) (forwardedPayload w1 payload)).
  rewrite !createChatCompletionsStream_withStream.
  change (payload_stream (withStream flag payload)) with flag.
  change (payload_stream (withStream (Some (Some true)) payload))
    with (Some (Some true)).
  rewrite (bool_decide_true (Some (Some true) = _)) by done.
  rewrite (bool_decide_false (flag = _)) by done.
  unfold deliver. simpl.
  destruct (createChatCompletionsStream _ (w2, tr)) as [[chunks|e] s'];
    simpl; [|done].
  split; [done|]. split; [by destruct (collectStreamToResponse chunks)|].
  split; [|by destruct (collectStreamToResponse chunks)].
  destruct (streamSSE_split chunks) as (unsent & Hsplit & Hsent & Hcut).
  by exists (streamSSE chunks), unsent.
Qed.
End Handler.

Lemma forwarded_request_initiator_witness :
  let w := {| Samples.sc_token := Some "token";
              Samples.sc_replies :=
                [ Some {| status := 200; response_body := "{}" |} ];
              Samples.sc_refreshes := [] |} in
  let payload :=
    {| payload_messages :=
         [ Samples.userMessage "hi";
           {| msg_role := Assistant; msg_content := ContentString "hello";
              msg_name := None; msg_tool_calls := None;
              msg_tool_call_id := None |} ];
       payload_model := "gpt-4o";
       payload_max_tokens := None;
       payload_stream := None;
       payload_params := [] |} in
  ∃ req,
    (handleCompletion (H:=Samples.scriptedEnvironment)
       (H0:=Samples.sampleParser) payload (w, [])).2.2 = [EvFetch req]
    ∧ req_headers req !! "X-Initiator" = Some "agent".
Proof.
  intros w payload. eexists. split; [reflexivity|].
  pose proof (forwarded_request_initiator (H:=Samples.scriptedEnvironment)
                (H0:=Samples.sampleParser) payload w) as Hall.
  apply Forall_inv in Hall. destruct Hall as [_ [[_ Hagent]|[Hnone _]]].
  - exact Hagent.
  - apply Forall_inv_tail, Forall_inv in Hnone. by destruct Hnone.
Defined.

Lemma rejected_request_sends_nothing_witness :
  let w := {| Samples.sc_token := Some "token";
              Samples.sc_replies :=
                [ Some {| status := 200; response_body := "{}" |} ];
              Samples.sc_refreshes := [] |} in
  handleCompletion (H:=MoreSamples.rejectingEnvironment)
    (H0:=Samples.sampleParser) (Samples.samplePayload "gpt-4o" None) (w, [])
  = (Thrown (Rejected "Rate limit exceeded"), (w, [])).
Proof.
  intros w.
  exact (rejected_request_sends_nothing (H:=MoreSamples.rejectingEnvironment)
           (H0:=Samples.sampleParser) _ w w [] _ eq_refl).
Defined.

Lemma buffered_answer_is_fold_of_streamed_witness :
  let body := Samples.json "{'choices':[{'delta':{'content':'Hel'}}]}" in
  let w := {| Samples.sc_token := Some "token";
              Samples.sc_replies :=
                [ Some {| status := 200; response_body := body |} ];
              Samples.sc_refreshes := [] |} in
  let payload := Samples.samplePayload "gpt-4o" None in
  let upstream :=
    createChatCompletionsStream (H:=MoreSamples.gappedEnvironment)
      (forwardedPayload (H:=MoreSamples.gappedEnvironment) w payload)
      (w, []) in
  let streamed :=
    handleCompletion (H:=MoreSamples.gappedEnvironment)
      (H0:=Samples.sampleParser)
      (withStream (Some (Some true)) payload) (w, []) in
  let buffered :=
    handleCompletion (H:=MoreSamples.gappedEnvironment)
      (H0:=Samples.sampleParser) (withStream None payload) (w, []) in
  (streamed.1 = Returned (SSEStream [Samples.dataEvent body])
   ∧ ∃ response,
       buffered.1 = Returned (JsonBody response)
       ∧ message_content <$> messageOf response = Some (Some "HelHel"))
  ∧ streamed.2 = upstream.2
  ∧ buffered.2 = upstream.2
  ∧ match upstream.1 with
    | Thrown e => streamed.1 = Thrown e ∧ buffered.1 = Thrown e
    | Returned chunks =>
        (∃ sent unsent,
           streamed.1 = Returned (SSEStream sent)
           ∧ chunks = sent ++ unsent
           ∧ Forall (λ ev, is_Some (sse_data ev)) sent
           ∧ (∀ ev, head unsent = Some ev → sse_data ev = None))
        ∧ buffered.1
          = match collectStreamToResponse (H:=Samples.sampleParser) chunks with
            | Returned response => Returned (JsonBody response)
            | Thrown e => Thrown e
            end
    end.
Proof.
  intros body w payload upstream streamed buffered. split.
  - split; [reflexivity|]. eexists. split; reflexivity.
  - apply (buffered_answer_is_fold_of_streamed
             (H:=MoreSamples.gappedEnvironment) (H0:=Samples.sampleParser)
             payload None w w []); [discriminate|reflexivity].
Defined.

Section Sibling.
Context `{Environment W} `{BodyReader J}.

Lemma preserves_createChatCompletions (P : TraceEvent → Prop) payload :
  P EvRefresh →
  (∀ w, P (EvFetch (doFetchRequest w payload None))) →
  preserves P (createChatCompletions payload).
Proof.
  intros HR HF. unfold createChatCompletions.
  apply preserves_bind; [by apply preserves_doFetch|]. intros r.
  apply preserves_bind.
  - apply preserves_if; [|apply preserves_ret].
    apply preserves_bind; [by apply preserves_callRefresh|]. intros b.
    apply preserves_if; [by apply preserves_doFetch | apply preserves_ret].
  - intros r'. apply preserves_if; [apply preserves_throw|].
    apply preserves_if; [apply preserves_ret|].
    destruct (response_json r'); [apply preserves_ret|apply preserves_throw].
Qed.

Lemma outcome_bind {A B} (Q : Outcome B → Prop) (m : M W A) (k : A → M W B) s :
  (∀ e, Q (Thrown e)) → (∀ a s', Q (k a s').1) → Q (bind m k s).1.
Proof.
  intros He Hk. unfold bind. destruct (m s) as [[a|e] s']; [apply Hk|apply He].
Qed.

(** X15: the entry point without the override sends [stream] as the
    client wrote it, and hands back the event stream only when the client
    asked for one with [stream] equal to [true].  When the first answer is
    [ok] it is the only request, and the result is the event stream of
    that answer for [stream] equal to [true] and otherwise (false, null,
    absent) what [response.json()] reads from it: the value, or the
    rejection when the body is not JSON. *)
Theorem createChatCompletions_keeps_client_stream
    (payload : ChatCompletionsPayload) (w : W) :
  let run := createChatCompletions payload (w, []) in
  let req := doFetchRequest w payload None in
  Forall (everyRequest (λ req,
            body_stream (req_body req) = payload_stream payload)) run.2.2
  ∧ match run.1 with
    | Returned (Streamed _) => payload_stream payload = Some (Some true)
    | Returned (Buffered _) => payload_stream payload ≠ Some (Some true)
    | Thrown _ => True
    end
  ∧ ∀ response,
      truthy (copilotToken w) = true →
      (fetch req w).1 = Some response →
      ok response = true →
      run = (match payload_stream payload with
             | Some (Some true) => Returned (Streamed (events response))
             | _ =>
                 match response_json response with
                 | Returned body => Returned (Buffered body)
                 | Thrown e => Thrown e
                 end
             end,
             ((fetch req w).2, [EvFetch req])).
Proof.
  cbv zeta. split; [|split].
  - apply (preserves_createChatCompletions _ payload); [done..|constructor].
  - unfold createChatCompletions.
    apply (outcome_bind (λ o, match o with
                              | Returned (Streamed _) => _
                              | Returned (Buffered _) => _
                              | Thrown _ => True
                              end)); [done|]. intros r s1.
    apply (outcome_bind (λ o, match o with
                              | Returned (Streamed _) => _
                              | Returned (Buffered _) => _
                              | Thrown _ => True
                              end)); [done|]. intros r' s2.
    destruct (negb (ok r')); [done|]. case_bool_decide; [done|].
    by destruct (response_json r').
  - intros response Htoken Hfetch Hok.
    unfold createChatCompletions, bind. rewrite doFetch_token by done.
    unfold callFetch. simpl.
    destruct (fetch _ w) as [[r|] w1]; simpl in *; [|done].
    injection Hfetch as ->.
    assert ((status response =? 401) = false) as ->.
    { unfold ok in Hok. apply andb_prop in Hok as [_ Hle]. lia. }
    unfold ret. rewrite Hok. simpl.
    destruct (payload_stream payload) as [[[|]|]|];
      (case_bool_decide; [try done|try done]);
      by destruct (response_json response).
Qed.

(** X16: for a client that asks for a stream the two entry points do the
    same: same requests, same refresh, same final world, same events or
    same error. *)
Theorem createChatCompletions_streaming_agrees
    (payload : ChatCompletionsPayload) (s : W * list TraceEvent) :
  payload_stream payload = Some (Some true) →
  createChatCompletions payload s
  = asStreamed (createChatCompletionsStream payload s).
Proof.
  destruct payload as [msgs model max stream params]. simpl. intros ->.
  set (payload := {| payload_messages := msgs; payload_stream := _ |}).
  unfold createChatCompletions, createChatCompletionsStream, asStreamed.
  change (doFetch payload None) with (doFetch payload (Some true)).
  unfold bind at 1 4.
  destruct (doFetch payload (Some true) s) as [[r|e] s1]; [|done].
  assert (∀ r' s', (if negb (ok r')
                    then throw (HTTPError "Failed to create chat completions" r')
                    else if bool_decide (payload_stream payload = Some (Some true))
                         then ret (Streamed (events r'))
                         else match response_json r' with
                              | Returned body => ret (Buffered body)
                              | Thrown e => throw e
                              end) s'
                   = asStreamed (eventsOrThrow r' s')) as Hend.
  { intros r' s'. unfold eventsOrThrow. by destruct (negb (ok r')). }
  unfold asStreamed in Hend. unfold bind at 1 3.
  destruct (status r =? 401); [|unfold ret; apply Hend].
  unfold bind. destruct (callRefresh s1) as [[[|]|e] s2]; [| |done].
  - destruct (doFetch payload (Some true) s2) as [[r2|e] s3]; [|done].
    apply Hend.
  - unfold ret. apply Hend.
Qed.
End Sibling.

Lemma createChatCompletions_keeps_client_stream_witness :
  let w := {| Samples.sc_token := Some "token";
              Samples.sc_replies :=
                [ Some {| status := 200; response_body := "Bad Gateway" |} ];
              Samples.sc_refreshes := [] |} in
  let payload := Samples.samplePayload "gpt-4o" (Some (Some false)) in
  createChatCompletions (H:=Samples.scriptedEnvironment)
    (H0:=MoreSamples.sampleBodyReader) payload (w, [])
  = (Thrown (SyntaxError "Unexpected token"),
     ({| Samples.sc_token := Some "token"; Samples.sc_replies := [];
         Samples.sc_refreshes := [] |},
      [EvFetch (doFetchRequest (H:=Samples.scriptedEnvironment)
                  w payload None)])).
Proof.
  intros w payload.
  exact (proj2 (proj2 (createChatCompletions_keeps_client_stream
                         (H:=Samples.scriptedEnvironment)
                         (H0:=MoreSamples.sampleBodyReader) payload w))
           {| status := 200; response_body := "Bad Gateway" |}
           eq_refl eq_refl eq_refl).
Defined.

Lemma createChatCompletions_streaming_agrees_witness :
  let w := {| Samples.sc_token := Some "token";
              Samples.sc_replies :=
                [ Some {| status := 200; response_body := "{}" |} ];
              Samples.sc_refreshes := [] |} in
  (createChatCompletions (H:=Samples.scriptedEnvironment)
     (H0:=MoreSamples.sampleBodyReader)
     (Samples.samplePayload "gpt-4o" (Some (Some true))) (w, [])).1
  = Returned (Streamed [Samples.dataEvent "{}"; Samples.dataEvent "[DONE]"]).
Proof.
  intros w.
  rewrite (createChatCompletions_streaming_agrees
             (H:=Samples.scriptedEnvironment)
             (H0:=MoreSamples.sampleBodyReader)
             (Samples.samplePayload "gpt-4o" (Some (Some true))) (w, []) eq_refl).
  reflexivity.
Defined.
End RelayExtras.

(** ** Stream accumulator *)

Module FoldExtras.
Import Relay Handler Specs MoreSpecs CollectFacts LatchFacts ToolCallFacts
  ToolCallOrder.

(** *** One chunk *)

Lemma applyChunk_shape parsed a :
  applyChunkToAccumulator parsed a
  = match shapeError parsed with
    | Some e => Thrown e
    | None => Returned (applied a parsed)
    end.
Proof.
  unfold applyChunkToAccumulator, shapeError, applied, chunkFinish, chunkText,
    fragments.
  pose proof (latch_rest parsed a) as Hrest. revert Hrest.
  destruct (latch parsed a) as [i m c f fr ct tc u]. simpl.
  intros (-> & -> & -> & ->).
  destruct (chunk_choices parsed) as [[|choice others]|]; simpl; [| |done].
  - rewrite append_nil_r. by destruct (chunk_usage parsed).
  - destruct (choice_delta choice) as [delta|]; [|done].
    destruct (chunk_usage parsed), (choice_finish_reason choice),
      (delta_content delta), (delta_tool_calls delta); simpl;
      unfold set_toolCalls, set_content, set_finishReason, set_usage; simpl;
      by rewrite ?append_nil_r.
Qed.

Section Loop.
Context `{JsonParser}.

(** *** The loop as a fold over the chunks that reach the accumulator *)

Lemma collectLoop_appliedChunks stream acc :
  collectLoop stream acc
  = match firstShapeError (appliedChunks stream) with
    | Some e => Thrown e
    | None => Returned (foldl applied acc (appliedChunks stream))
    end.
Proof.
  revert acc. induction stream as [|ev stream IH]; intros acc; simpl; [done|].
  unfold loopStep.
  destruct (negb (truthy (sse_data ev))); [apply IH|].
  destruct (String.eqb _ "[DONE]"); [done|].
  destruct (parseChunkDataOrLog _) as [parsed|]; [|apply IH].
  rewrite applyChunk_shape. simpl.
  destruct (shapeError parsed); [done|]. apply IH.
Qed.

Lemma collectStreamToResponse_appliedChunks stream :
  collectStreamToResponse stream
  = match firstShapeError (appliedChunks stream) with
    | Some e => Thrown e
    | None =>
        Returned (buildResponse
                    (foldl applied createAccumulator (appliedChunks stream)))
    end.
Proof.
  unfold collectStreamToResponse. rewrite collectLoop_appliedChunks.
  by destruct (firstShapeError _).
Qed.


Lemma appliedChunks_app_done before done after :
  sse_data done = Some "[DONE]" →
  appliedChunks (before ++ done :: after) = appliedChunks before.
Proof.
  intros Hdone. induction before as [|ev before IH]; simpl.
  - by rewrite Hdone.
  - by rewrite IH.
Qed.

(** X18: nothing after the end-of-stream sentinel counts: the response is
    the one of the events before it. *)
Theorem events_after_done_ignored
    (before after : list ServerSentEventMessage)
    (done : ServerSentEventMessage) :
  sse_data done = Some "[DONE]" →
  collectStreamToResponse (before ++ done :: after)
  = collectStreamToResponse before.
Proof.
  intros Hdone. rewrite !collectStreamToResponse_appliedChunks.
  by rewrite appliedChunks_app_done.
Qed.

(** X19: an event without data, with empty data, or whose data is the
    JSON text of a falsy value (such as [null]) is passed over: the
    response is the one of the stream without it. *)
Theorem empty_event_skipped (before after : list ServerSentEventMessage)
    (ev : ServerSentEventMessage) :
  sse_data ev = None
  ∨ sse_data ev = Some EmptyString
  ∨ (∃ data, sse_data ev = Some data ∧ data ≠ "[DONE]"
             ∧ JSON_parse data = Some None) →
  collectStreamToResponse (before ++ ev :: after)
  = collectStreamToResponse (before ++ after).
Proof.
  intros Hev. unfold collectStreamToResponse.
  rewrite collectLoop_skip; [done|]. intros a. unfold loopStep.
  destruct Hev as [->| [->|(data & -> & Hdone & Hparse)]]; [done..|].
  destruct (truthy (Some data)); simpl; [|done].
  rewrite (proj2 (String.eqb_neq _ _) Hdone).
  unfold parseChunkDataOrLog. by rewrite Hparse.
Qed.

(** *** What the fold leaves in each field *)

Lemma foldl_applied_snoc a chunks parsed :
  foldl applied a (chunks ++ [parsed]) = applied (foldl applied a chunks) parsed.
Proof. by rewrite foldl_app. Qed.

Lemma foldl_applied_content a chunks :
  acc_content (foldl applied a chunks)
  = acc_content a +:+ concatStrings (chunkText <$> chunks).
Proof.
  revert a. induction chunks as [|c chunks IH]; intros a; csimpl.
  - by rewrite append_nil_r.
  - rewrite IH. simpl. by rewrite append_assoc.
Qed.

Lemma foldl_applied_finishReason a chunks :
  acc_finishReason (foldl applied a chunks)
  = default (acc_finishReason a) (last (omap chunkFinish chunks)).
Proof.
  induction chunks as [|c chunks IH] using rev_ind; [done|].
  rewrite foldl_applied_snoc, omap_app. simpl. rewrite IH.
  destruct (chunkFinish c) as [r|]; simpl.
  - by rewrite last_snoc.
  - by rewrite app_nil_r.
Qed.

Lemma foldl_applied_usage a chunks :
  acc_usage (foldl applied a chunks)
  = match last (omap chunk_usage chunks) with
    | Some u => Some u
    | None => acc_usage a
    end.
Proof.
  induction chunks as [|c chunks IH] using rev_ind; [done|].
  rewrite foldl_applied_snoc, omap_app. simpl. rewrite IH.
  destruct (chunk_usage c) as [u|]; simpl.
  - by rewrite last_snoc.
  - by rewrite app_nil_r.
Qed.

Lemma foldl_applied_id a chunks :
  acc_id (foldl applied a chunks)
  = if isEmpty (acc_id a) then firstTruthy (chunk_id <$> chunks) else acc_id a.
Proof.
  revert a. induction chunks as [|c chunks IH]; intros a; csimpl.
  - destruct (isEmpty (acc_id a)) eqn:Ha; [|done]. by apply isEmpty_true.
  - rewrite IH. simpl. rewrite latch_id.
    destruct (isEmpty (acc_id a)) eqn:Ha; simpl; [|by rewrite Ha].
    destruct (truthy (chunk_id c)) eqn:Hc; [|by rewrite Ha].
    by rewrite truthy_true_default.
Qed.

Lemma foldl_applied_model a chunks :
  acc_model (foldl applied a chunks)
  = if isEmpty (acc_model a) then firstTruthy (chunk_model <$> chunks)
    else acc_model a.
Proof.
  revert a. induction chunks as [|c chunks IH]; intros a; csimpl.
  - destruct (isEmpty (acc_model a)) eqn:Ha; [|done]. by apply isEmpty_true.
  - rewrite IH. simpl. rewrite latch_model.
    destruct (isEmpty (acc_model a)) eqn:Ha; simpl; [|by rewrite Ha].
    destruct (truthy (chunk_model c)) eqn:Hc; [|by rewrite Ha].
    by rewrite truthy_true_default.
Qed.

Lemma foldl_applied_created a chunks :
  acc_created (foldl applied a chunks)
  = if acc_created a =? 0 then firstNonZero (chunk_created <$> chunks)
    else acc_created a.
Proof.
  revert a. induction chunks as [|c chunks IH]; intros a; csimpl.
  - destruct (acc_created a =? 0) eqn:Ha; [|done]. by apply Z.eqb_eq.
  - rewrite IH. simpl. rewrite latch_created.
    destruct (acc_created a =? 0) eqn:Ha; simpl; [|by rewrite Ha].
    destruct (default 0 (chunk_created c) =? 0) eqn:Hc; simpl;
      [by rewrite Ha|by rewrite Hc].
Qed.

Lemma foldl_applied_systemFingerprint a chunks :
  acc_systemFingerprint (foldl applied a chunks)
  = if truthy (acc_systemFingerprint a) then acc_systemFingerprint a
    else let s := firstTruthy (chunk_system_fingerprint <$> chunks) in
         if isEmpty s then acc_systemFingerprint a else Some s.
Proof.
  revert a. induction chunks as [|c chunks IH]; intros a; csimpl.
  - by destruct (truthy (acc_systemFingerprint a)).
  - rewrite IH. simpl. rewrite latch_systemFingerprint.
    destruct (truthy (acc_systemFingerprint a)) eqn:Ha; simpl;
      [by rewrite Ha|].
    destruct (truthy (chunk_system_fingerprint c)) eqn:Hc;
      [|by rewrite Ha].
    rewrite Hc, truthy_true_default by done.
    destruct (chunk_system_fingerprint c); [done|discriminate].
Qed.

(** X20: when the fold returns, the content of the message is all the
    text deltas of the chunks that reached the accumulator, in order, one
    after the other, and [null] when that text is empty. *)
Theorem content_is_concatenated_text (stream : list ServerSentEventMessage)
    (response : ChatCompletionResponse) :
  collectStreamToResponse stream = Returned response →
  message_content <$> messageOf response
  = Some (let text := concatStrings (chunkText <$> appliedChunks stream) in
          if isEmpty text then None else Some text).
Proof.
  rewrite collectStreamToResponse_appliedChunks.
  destruct (firstShapeError _); [done|]. intros [= <-].
  unfold messageOf, buildResponse. simpl.
  by rewrite foldl_applied_content.
Qed.

(** X21: when the fold returns, the finish reason is the last one any
    chunk stated, and [stop] when none did; the usage is the last one any
    chunk carried, and absent when none did. *)
Theorem last_finish_reason_and_usage (stream : list ServerSentEventMessage)
    (response : ChatCompletionResponse) :
  collectStreamToResponse stream = Returned response →
  cns_finish_reason <$> head (resp_choices response)
  = Some (default Stop (last (omap chunkFinish (appliedChunks stream))))
  ∧ resp_usage response = last (omap chunk_usage (appliedChunks stream)).
Proof.
  rewrite collectStreamToResponse_appliedChunks.
  destruct (firstShapeError _); [done|]. intros [= <-].
  unfold buildResponse. simpl.
  rewrite foldl_applied_finishReason, foldl_applied_usage. simpl.
  split; [done|]. by destruct (last _).
Qed.

(** X22: when the fold returns, id and model are the first non-empty ones
    among the chunks (the empty string when there is none), created is the
    first that is not zero (zero when there is none), and the system
    fingerprint is the first non-empty one (absent when there is none). *)
Theorem first_values_latched (stream : list ServerSentEventMessage)
    (response : ChatCompletionResponse) :
  collectStreamToResponse stream = Returned response →
  let chunks := appliedChunks stream in
  resp_id response = firstTruthy (chunk_id <$> chunks)
  ∧ resp_model response = firstTruthy (chunk_model <$> chunks)
  ∧ resp_created response = firstNonZero (chunk_created <$> chunks)
  ∧ resp_system_fingerprint response
    = (let s := firstTruthy (chunk_system_fingerprint <$> chunks) in
       if isEmpty s then None else Some s).
Proof.
  rewrite collectStreamToResponse_appliedChunks.
  destruct (firstShapeError _); [done|]. intros [= <-]. cbv zeta.
  unfold buildResponse. simpl.
  rewrite foldl_applied_id, foldl_applied_model, foldl_applied_created,
    foldl_applied_systemFingerprint. simpl.
  repeat split.
  generalize (firstTruthy (chunk_system_fingerprint <$> appliedChunks stream)).
  intros s. unfold isEmpty. destruct (String.eqb s EmptyString) eqn:Hs; [done|].
  simpl. by rewrite Hs.
Qed.

(** *** The accumulator only grows *)

Lemma grows_refl a : grows a a.
Proof.
  split; [done|]. split; [|done]. exists EmptyString. by rewrite append_nil_r.
Qed.

Lemma grows_trans a b c : grows a b → grows b c → grows a c.
Proof.
  intros (Hk & [s Hs] & Hn) (Hk' & [s' Hs'] & Hn').
  split; [by etrans|]. split; [|auto].
  exists (s +:+ s'). by rewrite Hs', Hs, append_assoc.
Qed.

Lemma applied_grows a parsed : grows a (applied a parsed).
Proof.
  unfold grows, applied. simpl.
  rewrite mergeToolCalls_keys, foldl_pushNew.
  split; [by apply prefix_app_r|]. split; [by eexists|].
  intros Hnd. apply NoDup_app. split; [done|]. split.
  - intros x Hx [Hnot _]%list_elem_of_filter. done.
  - apply NoDup_filter, NoDup_first_occurrences.
Qed.

Lemma loopStep_grows ev a a' : loopStep ev a = Continue a' → grows a a'.
Proof.
  unfold loopStep.
  destruct (negb (truthy (sse_data ev))); [intros [= ->]; apply grows_refl|].
  destruct (String.eqb _ "[DONE]"); [done|].
  destruct (parseChunkDataOrLog _) as [parsed|];
    [|intros [= ->]; apply grows_refl].
  rewrite applyChunk_shape. destruct (shapeError parsed); [done|].
  intros [= <-]. apply applied_grows.
Qed.

(** A relation that every iteration respects holds between the states
    of the loop, in their order. *)
Lemma history_related (R : StreamAccumulator → StreamAccumulator → Prop) :
  (∀ a, R a a) → (∀ a b c, R a b → R b c → R a c) →
  (∀ ev a a', loopStep ev a = Continue a' → R a a') →
  ∀ stream acc (i j : nat) a b,
    (i ≤ j)%nat →
    accumulatorHistory stream acc !! i = Some a →
    accumulatorHistory stream acc !! j = Some b →
    R acc a ∧ R a b.
Proof.
  intros Hrefl Htrans Hstep stream.
  induction stream as [|ev stream IH]; intros acc i j a b Hij; simpl.
  - by rewrite lookup_nil.
  - destruct (loopStep ev acc) as [a'| |] eqn:Hev; [|by rewrite lookup_nil..].
    apply Hstep in Hev.
    destruct j as [|j]; simpl.
    + assert (i = 0%nat) as -> by lia. simpl. intros [= ->] [= ->]. auto.
    + destruct i as [|i]; simpl.
      * intros [= ->] Hb. split; [done|].
        by destruct (IH a j j b b (le_n _) Hb Hb) as [? _].
      * intros Ha Hb.
        destruct (IH a' i j a b ltac:(lia) Ha Hb) as [Hfrom Hab].
        split; [by eapply Htrans|done].
Qed.

(** X23: through the loop the accumulator only grows: from one state to
    any later one the text is extended at its end and the tool calls keep
    their places, new indices being added after them; no index is ever
    held twice. *)
Theorem accumulator_only_grows (stream : list ServerSentEventMessage)
    (i j : nat) (a b : StreamAccumulator) :
  (i ≤ j)%nat →
  accumulatorHistory stream createAccumulator !! i = Some a →
  accumulatorHistory stream createAccumulator !! j = Some b →
  (acc_toolCalls a).*1 `prefix_of` (acc_toolCalls b).*1
  ∧ (∃ s, acc_content b = acc_content a +:+ s)
  ∧ NoDup (acc_toolCalls b).*1.
Proof.
  intros Hij Ha Hb.
  destruct (history_related grows grows_refl grows_trans loopStep_grows
              stream createAccumulator i j a b Hij Ha Hb)
    as [(_ & _ & Hna) (Hk & Hs & Hnb)].
  split; [done|]. split; [done|]. apply Hnb, Hna. constructor.
Qed.
End Loop.

Lemma events_after_done_ignored_witness :
  let hello := Samples.dataEvent
                 (Samples.json "{'choices':[{'delta':{'content':'Hello'}}]}") in
  let lo := Samples.dataEvent
              (Samples.json "{'choices':[{'delta':{'content':'lo'}}]}") in
  collectStreamToResponse (H:=Samples.sampleParser)
    ([hello] ++ Samples.dataEvent "[DONE]" :: [lo; Samples.dataEvent "{}"])
  = collectStreamToResponse (H:=Samples.sampleParser) [hello].
Proof.
  intros hello lo.
  exact (events_after_done_ignored (H:=Samples.sampleParser) [hello] _
           (Samples.dataEvent "[DONE]") eq_refl).
Defined.

Lemma empty_event_skipped_witness :
  let hello := Samples.dataEvent
                 (Samples.json "{'choices':[{'delta':{'content':'Hello'}}]}") in
  collectStreamToResponse (H:=Samples.sampleParser)
    ([hello] ++ Samples.dataEvent "null" :: [])
  = collectStreamToResponse (H:=Samples.sampleParser) ([hello] ++ []).
Proof.
  intros hello.
  apply (empty_event_skipped (H:=Samples.sampleParser)).
  right. right. exists "null". split; [reflexivity|].
  split; [discriminate|reflexivity].
Defined.

Lemma content_is_concatenated_text_witness :
  let stream :=
    Samples.dataEvent <$>
      [ Samples.json "{'choices':[{'delta':{'content':'Hel'}}]}";
        Samples.json "{'choices':[{'delta':{'content':'lo'}}]}";
        Samples.json "{'choices':[{'delta':{},'finish_reason':'stop'}]}" ] in
  ∃ response,
    collectStreamToResponse (H:=Samples.sampleParser) stream = Returned response
    ∧ message_content <$> messageOf response = Some (Some "Hello").
Proof.
  intros stream. eexists. split; [reflexivity|].
  exact (content_is_concatenated_text (H:=Samples.sampleParser) stream _
           eq_refl).
Defined.

Lemma last_finish_reason_and_usage_witness :
  let stream :=
    Samples.dataEvent <$>
      [ Samples.json "{'choices':[{'delta':{'content':'Hel'}}]}";
        Samples.json "{'choices':[{'delta':{},'finish_reason':'stop'}]}" ] in
  ∃ response,
    collectStreamToResponse (H:=Samples.sampleParser) stream = Returned response
    ∧ cns_finish_reason <$> head (resp_choices response) = Some Stop.
Proof.
  intros stream. eexists. split; [reflexivity|].
  exact (proj1 (last_finish_reason_and_usage (H:=Samples.sampleParser) stream _
                  eq_refl)).
Defined.

Lemma first_values_latched_witness :
  let stream :=
    Samples.dataEvent <$>
      [ Samples.json "{'id':'x','choices':[{'delta':{'content':'a'}}]}";
        Samples.json "{'id':'y','choices':[{'delta':{'content':'b'}}]}" ] in
  ∃ response,
    collectStreamToResponse (H:=Samples.sampleParser) stream = Returned response
    ∧ resp_id response = "x".
Proof.
  intros stream. eexists. split; [reflexivity|].
  exact (proj1 (first_values_latched (H:=Samples.sampleParser) stream _
                  eq_refl)).
Defined.

Lemma accumulator_only_grows_witness :
  let stream :=
    Samples.dataEvent <$>
      [ Samples.json "{'choices':[{'delta':{'content':'Hel'}}]}";
        Samples.json "{'choices':[{'delta':{'content':'lo'}}]}" ] in
  let history :=
    accumulatorHistory (H:=Samples.sampleParser) stream createAccumulator in
  acc_content <$> history = ["Hel"; "Hello"]
  ∧ ∃ s, acc_content (default createAccumulator (history !! 1%nat))
         = acc_content (default createAccumulator (history !! 0%nat)) +:+ s.
Proof.
  intros stream history. split; [reflexivity|].
  refine (proj1 (proj2 (accumulator_only_grows (H:=Samples.sampleParser)
                          stream 0 1 _ _ _ _ _)));
    [lia | reflexivity | reflexivity].
Defined.
End FoldExtras.

(** ** The token endpoints and the refresh command *)

Module TokenExtras.
Import Relay TokenRoute RefreshTokenCommand MoreSpecs.

Section Endpoints.
Context `{TokenSource W}.

(** X24: after [POST /token/refresh], [GET /token] serves the token that
    the acquisition returned when it succeeded and the reply was 200;
    when the acquisition failed the reply is 500 and the state is as the
    acquisition left it, nothing having been assigned. *)
Theorem token_served_after_refresh (w : W) :
  let (reply, w') := postRefresh w in
  match getCopilotToken w with
  | (Some token, _) =>
      reply_status reply = 200
      ∧ getToken w'
        = {| reply_status := 200; reply_members := [("token", JString token)] |}
  | (None, w1) => reply_status reply = 500 ∧ w' = w1
  end.
Proof.
  unfold postRefresh, getToken.
  destruct (getCopilotToken w) as [[token|] w1]; [|done].
  by rewrite copilotToken_set.
Qed.

(** X25: the command run against the refresh endpoint reports what the
    endpoint did: it prints the success line and returns when the
    acquisition succeeded, and prints the endpoint's error text and exits
    with 1 when it failed. *)
Theorem command_reports_refresh_outcome (port : string) (w : W) :
  run port (λ _, Some (served (postRefresh w).1))
  = match (getCopilotToken w).1 with
    | Some _ =>
        {| console := [ConsoleSuccess "Token refreshed successfully"];
           exit_code := None |}
    | None =>
        {| console := [ConsoleError "Failed to refresh token:"
                         (Some (JString "Failed to refresh token"))];
           exit_code := Some 1 |}
    end.
Proof.
  unfold postRefresh. by destruct (getCopilotToken w) as [[token|] w1].
Qed.
End Endpoints.

(** X26: the command returns without exiting exactly when its one POST to
    [http://localhost:<port>/token/refresh] is answered with a status
    from 200 to 299 and a JSON body whose [success] member is truthy; in
    every other case it exits with 1, and it prints the success line in
    the first case only. *)
Theorem command_exit_code (port : string) (post : string → option HttpReply) :
  let result := run port post in
  (exit_code result = None ∨ exit_code result = Some 1)
  ∧ (exit_code result = None
     ↔ ∃ response data,
         post (refreshUrl port) = Some response
         ∧ http_body response = BodyMembers data
         ∧ 200 ≤ http_status response ≤ 299
         ∧ jsTruthy (getMember data "success") = true)
  ∧ (ConsoleSuccess "Token refreshed successfully" ∈ console result
     ↔ exit_code result = None).
Proof.
  unfold run, refreshUrl. cbv zeta.
  destruct (post _) as [[status body]|] eqn:Hpost; simpl.
  2:{ split; [by right|]. split; [|set_solver].
      split; [done|]. by intros (? & ? & [=] & _). }
  destruct body as [| |data]; simpl.
  1,2: split; [by right|]; split; [|set_solver];
       split; [done|]; by intros (? & ? & [= <-] & [=] & _).
  unfold okStatus.
  destruct ((200 <=? status) && (status <=? 299)
            && jsTruthy (getMember data "success")) eqn:Hok; simpl.
  - apply andb_prop in Hok as [[H1 H2]%andb_prop H3].
    split; [by left|]. split; [|set_solver].
    split; [|done]. intros _.
    exists {| http_status := status; http_body := BodyMembers data |}, data.
    simpl. repeat split; [lia..|done].
  - split; [by right|]. split; [|set_solver].
    split; [done|]. intros (? & data' & [= <-] & [= <-] & Hst & Ht).
    simpl in Hst. rewrite Ht in Hok.
    apply andb_false_iff in Hok as [Hok|]; [|done].
    apply andb_false_iff in Hok as [Hok|Hok]; lia.
Qed.

Lemma token_served_after_refresh_witness :
  let w := {| Samples.sc_token := Some "old"; Samples.sc_replies := [];
              Samples.sc_refreshes := [Some "new"] |} in
  let (reply, w') := postRefresh (H0:=MoreSamples.scriptedTokenSource) w in
  reply_status reply = 200
  ∧ getToken (H:=Samples.scriptedEnvironment) w'
    = {| reply_status := 200; reply_members := [("token", JString "new")] |}.
Proof.
  exact (token_served_after_refresh (H0:=MoreSamples.scriptedTokenSource)
           {| Samples.sc_token := Some "old"; Samples.sc_replies := [];
              Samples.sc_refreshes := [Some "new"] |}).
Defined.

Lemma command_reports_refresh_outcome_witness :
  let w := {| Samples.sc_token := Some "old"; Samples.sc_replies := [];
              Samples.sc_refreshes := [None] |} in
  exit_code
    (run "4141"
       (λ _, Some (served (postRefresh (H0:=MoreSamples.scriptedTokenSource) w).1)))
  = Some 1.
Proof.
  intros w.
  exact (f_equal exit_code
           (command_reports_refresh_outcome
              (H0:=MoreSamples.scriptedTokenSource) "4141" w)).
Defined.
End TokenExtras.
